(** * aria-mcp: the ARIA specification parser, [scripts/parse-aria-spec.js]

    A shallow embedding of the extraction-and-resolution pipeline and the
    properties its specification states about it.

    Conventions of the embedding.
    - Strings are sequences of code units below 256 (Latin-1); the character
      classes and case mapping below are the JavaScript ones restricted to
      that range.
    - What the libraries hand to the script is input of the model: the
      elements and texts a cheerio selector returns, the result of the two
      [value.match(...)] calls, the object that evaluating [roleInfo.js]
      yields.  Line numbers are those of [scripts/parse-aria-spec.js].
    - A JS object used as a lookup table ([roleInfo]) is a [gmap string _];
      a JS object whose keys are enumerated ([roles], the attribute map, the
      module role maps, the element mappings) is an insertion-ordered
      association list, see [JsObj].  Keys are assumed not to be canonical
      array indices (which JavaScript enumerates first) and not to be member
      names of [Object.prototype].
    - A JS [Set] that is passed down the recursion and mutated ([visited]) is
      threaded through explicitly: every call returns the set it leaves
      behind.
    - A field that an object may lack is an [option]; [None] is [undefined],
      which [JSON.stringify] omits from the output.
    - A file that exists can be read and the output file can be written.
      The object literal of [roleInfo.js] is data: evaluating it has no
      effect and either throws or yields an object.  The entries of that
      object have the shape [RoleInfoEntry] in [FileSystem] and [main];
      [Environment] and [main_catch] admit the entries on which the merge
      throws, and [main_catch_typed] relates the two. *)

From Stdlib Require Import Ascii String.
From stdpp Require Import gmap strings list fin_maps relations sorting pretty.

#[local] Set Warnings "-clear-no-such-hyp".

(** ** Strings *)

Definition code (c : ascii) : nat := nat_of_ascii c.

(** The class [\s] of a JS regular expression, which is also what
    [String.prototype.trim] strips: TAB, LF, VT, FF, CR, SP and NBSP. *)
Definition is_space (c : ascii) : bool :=
  bool_decide (code c ∈ [9; 10; 11; 12; 13; 32; 160]).

(** [s.replace(/\s+/g, ' ')]: [in_run] tells whether the previous code unit
    was white space, in which case the run has already produced its blank. *)
Fixpoint collapse_spaces (in_run : bool) (s : string) : string :=
  match s with
  | EmptyString => EmptyString
  | String c rest =>
      if is_space c
      then if in_run then collapse_spaces true rest
           else String " "%char (collapse_spaces true rest)
      else String c (collapse_spaces false rest)
  end.

Fixpoint trimStart (s : string) : string :=
  match s with
  | EmptyString => EmptyString
  | String c rest => if is_space c then trimStart rest else s
  end.

Fixpoint trimEnd (s : string) : string :=
  match s with
  | EmptyString => EmptyString
  | String c rest =>
      let rest' := trimEnd rest in
      if is_space c && String.eqb rest' "" then "" else String c rest'
  end.

Definition trim (s : string) : string := trimEnd (trimStart s).

(** [cleanText], lines 21-27.  The guard [if (!text) return ''] is the empty
    string mapping to itself; the second [replace] finds no line feed left
    after the first one and is the identity. *)
Definition cleanText (text : string) : string :=
  if String.eqb text "" then "" else trim (collapse_spaces false text).

(** [String.prototype.toLowerCase] on one code unit: [A-Z], and the Latin-1
    capitals U+00C0..U+00DE except the multiplication sign U+00D7. *)
Definition lower_unit (c : ascii) : ascii :=
  let n := code c in
  if bool_decide (65 ≤ n ≤ 90) || (bool_decide (192 ≤ n ≤ 222) && negb (bool_decide (n = 215)))
  then ascii_of_nat (n + 32) else c.

Fixpoint toLowerCase (s : string) : string :=
  match s with
  | EmptyString => EmptyString
  | String c rest => String (lower_unit c) (toLowerCase rest)
  end.

(** [haystack.includes(needle)]. *)
Fixpoint includes (haystack needle : string) : bool :=
  String.prefix needle haystack
  || match haystack with
     | EmptyString => false
     | String _ rest => includes rest needle
     end.

(** [s.split(sep)] for a one-unit separator [sep]. *)
Fixpoint split_on (sep : ascii) (cur : string) (s : string) : list string :=
  match s with
  | EmptyString => [String.rev cur]
  | String c rest =>
      if Ascii.eqb c sep then String.rev cur :: split_on sep "" rest
      else split_on sep (String c cur) rest
  end.

Definition split (sep : ascii) (s : string) : list string := split_on sep "" s.

(** [xs.filter(Boolean)] on strings: the empty string is the falsy one. *)
Definition filter_Boolean (xs : list string) : list string :=
  List.filter (λ s, negb (String.eqb s "")) xs.

(** [value.split(/[,\s]+/)]: cut at every run of commas and white space.  An
    input that begins or ends with a separator yields an empty first or last
    piece, as in JavaScript. *)
Fixpoint split_list_go (in_sep : bool) (cur : string) (s : string) : list string :=
  match s with
  | EmptyString => [String.rev cur]
  | String c rest =>
      if is_space c || Ascii.eqb c ","%char
      then if in_sep then split_list_go true cur rest
           else String.rev cur :: split_list_go true "" rest
      else split_list_go false (String c cur) rest
  end.

Definition split_list (s : string) : list string := split_list_go false "" s.

(** ** JS objects whose keys are enumerated *)

Definition JsObj (A : Type) : Type := list (string * A).

(** [o[k]] on own keys. *)
Fixpoint obj_get {A} (o : JsObj A) (k : string) : option A :=
  match o with
  | [] => None
  | (k', v) :: rest => if String.eqb k' k then Some v else obj_get rest k
  end.

(** [o[k] = v]: an existing key keeps its place, a new one goes last. *)
Fixpoint obj_set {A} (o : JsObj A) (k : string) (v : A) : JsObj A :=
  match o with
  | [] => [(k, v)]
  | (k', v') :: rest =>
      if String.eqb k' k then (k, v) :: rest else (k', v') :: obj_set rest k v
  end.

(** [o[k].field = ...]: a mutation of the object stored under [k]. *)
Fixpoint obj_update {A} (o : JsObj A) (k : string) (f : A → A) : JsObj A :=
  match o with
  | [] => []
  | (k', v) :: rest =>
      if String.eqb k' k then (k', f v) :: rest else (k', v) :: obj_update rest k f
  end.

Definition obj_keys {A} (o : JsObj A) : list string := o.*1.

(** ** The structured inheritance table ([roleInfo.js]) *)

(** One entry of a [localprops] / [allprops] array.  The resolver reads only
    [name]; the tags are carried along untouched. *)
Record PropEntry := mkProp {
  prop_is : option string;
  prop_name : string;
  prop_required : option bool;
  prop_disallowed : option bool;
  prop_deprecated : option bool;
}.

(** One value of the [roleInfo] table.  Fields other than these three are
    never read by the parser. *)
Record RoleInfoEntry := mkInfo {
  parentRoles : option (list string);
  localprops : option (list PropEntry);
  allprops : option (list PropEntry);
}.

(** ** [buildAllProps], lines 202-226 *)

(** The inner loop, lines 217-221:
    [for (const parentProp of parentProps)
       if (!props.find(p => p.name === parentProp.name)) props.push(parentProp)]. *)
Fixpoint push_missing (props parentProps : list PropEntry) : list PropEntry :=
  match parentProps with
  | [] => props
  | parentProp :: rest =>
      match List.find (λ p, bool_decide (prop_name p = prop_name parentProp)) props with
      | Some _ => push_missing props rest
      | None => push_missing (props ++ [parentProp]) rest
      end
  end.

(** The outer loop, lines 214-222, over [role.parentRoles]; [rec] is the
    recursive call, which receives and returns the shared [visited] set. *)
Fixpoint for_parents (rec : string → gset string → option (list PropEntry * gset string))
    (parents : list string) (props : list PropEntry) (visited : gset string)
    : option (list PropEntry * gset string) :=
  match parents with
  | [] => Some (props, visited)
  | parentName :: rest =>
      match rec parentName visited with
      | None => None
      | Some (parentProps, visited') =>
          for_parents rec rest (push_missing props parentProps) visited'
      end
  end.

(** [buildAllProps] with an explicit recursion budget; [None] is "budget
    exhausted", which [buildAllProps_fuel_enough] rules out for the budget
    that [buildAllProps] passes. *)
Fixpoint buildAllProps_fuel (fuel : nat) (roleName : string)
    (roleInfo : gmap string RoleInfoEntry) (visited : gset string)
    : option (list PropEntry * gset string) :=
  match fuel with
  | 0 => None
  | S fuel' =>
      if decide (roleName ∈ visited) then Some ([], visited)
      else
        let visited := {[roleName]} ∪ visited in
        match roleInfo !! roleName with
        | None => Some ([], visited)
        | Some role =>
            match allprops role with
            | Some own => Some (own, visited)
            | None =>
                let props := default [] (localprops role) in
                match parentRoles role with
                | None => Some (props, visited)
                | Some parents =>
                    for_parents (λ parentName v, buildAllProps_fuel fuel' parentName roleInfo v)
                      parents props visited
                end
            end
        end
  end.

Definition buildAllProps (roleName : string) (roleInfo : gmap string RoleInfoEntry)
    (visited : gset string) : option (list PropEntry * gset string) :=
  buildAllProps_fuel (S (size roleInfo)) roleName roleInfo visited.

(** The call as [main] makes it, line 482: [visited] defaults to
    [new Set()], and only the returned list is used. *)
Definition buildAllProps_top (roleName : string) (roleInfo : gmap string RoleInfoEntry)
    : list PropEntry :=
  match buildAllProps roleName roleInfo ∅ with
  | Some (props, _) => props
  | None => []
  end.

(** ** What the loader hands to the extractor *)

(** One [tr] of a characteristics table, as the row callbacks of lines 61-66
    and 139-143 see it. *)
Record TableRow := mkRow {
  th_text : string;                (* [$row.find('th').text()] *)
  td_text : string;                (* [$row.find('td').text()] *)
  td_role_refs : list string;      (* texts of [$value.find('rref, a')] *)
  td_attr_refs : list string;      (* texts of [$value.find('sref, pref, a')] *)
  td_concept_refs : list string;   (* texts of [$value.find('a, code')] *)
  td_implicit : option (list string);  (* [value.match(/([a-z-]+)\s*:\s*([^;,]+)/gi)] *)
  td_tokens : option string;       (* group 1 of the [token] match, line 148 *)
}.

(** One [div.role] / [div.state] / [div.property] block. *)
Record DefBlock := mkBlock {
  block_id : option string;        (* [.attr('id')] *)
  block_is_state : bool;           (* [.hasClass('state')] *)
  block_description : string;      (* text of the description element(s) *)
  block_rows : list TableRow;      (* ['table.def tbody tr, table.def tr'] *)
}.

(** The primary document [aria/index.html]. *)
Record PrimaryDoc := mkPrimary {
  role_blocks : list DefBlock;     (* [$('div.role')] *)
  attr_blocks : list DefBlock;     (* [$('div.state, div.property')] *)
}.

(** An extension-module document. *)
Record ModuleDoc := mkModule {
  module_role_blocks : list DefBlock;
}.

(** A [table] of [html-aam/index.html]: caption text and, for each
    [tbody tr], the texts of its [td, th] cells. *)
Record MappingTable := mkTable {
  caption_text : string;
  body_rows : list (list string);
}.

Record AccNameDoc := mkAccName {
  title_text : string;
  abstract_text : string;
}.

(** [if (!id) return]: an absent or empty [id] skips the block. *)
Definition usable_id (b : DefBlock) : option string :=
  match block_id b with
  | Some id => if String.eqb id "" then None else Some id
  | None => None
  end.

(** [els.map((_, el) => cleanText($(el).text())).get().filter(Boolean)]. *)
Definition ref_list (texts : list string) : list string :=
  filter_Boolean (cleanText <$> texts).

(** ** [parseRoles], lines 32-109 *)

Record Role := mkRole {
  role_name : string;
  role_description : string;
  isAbstract : bool;
  superclassRoles : list string;
  subclassRoles : list string;
  relatedConcepts : list string;
  requiredContextRole : list string;
  requiredOwnedElements : list string;
  requiredStates : list string;
  supportedStates : list string;
  inheritedStates : list string;
  prohibitedStates : list string;
  nameFrom : list string;
  accessibleNameRequired : bool;
  childrenPresentational : bool;
  implicitValueForRole : JsObj string;
  (* added by [main], lines 479-482 *)
  role_parentRoles : option (list string);
  localProps : option (list PropEntry);
  allProps : option (list PropEntry);
  (* added by [categorizeRoles] *)
  role_category : option string;
}.

(** The object literal of lines 41-58. *)
Definition new_role (id description : string) : Role :=
  {| role_name := id; role_description := description; isAbstract := false;
     superclassRoles := []; subclassRoles := []; relatedConcepts := [];
     requiredContextRole := []; requiredOwnedElements := []; requiredStates := [];
     supportedStates := []; inheritedStates := []; prohibitedStates := [];
     nameFrom := []; accessibleNameRequired := false;
     childrenPresentational := false; implicitValueForRole := [];
     role_parentRoles := None; localProps := None; allProps := None;
     role_category := None |}.

(** The branches of the [if / else if] chain of lines 67-102, in its order. *)
Inductive RoleRowKind :=
  | RowSuperclass | RowSubclass | RowRelatedConcept | RowRequiredContext
  | RowRequiredOwned | RowRequiredState | RowSupportedState | RowInheritedState
  | RowProhibitedState | RowNameFrom | RowNameRequired | RowChildrenPresentational
  | RowIsAbstract | RowImplicitValue | RowIgnored.

(** Which branch a row with (lower-cased, cleaned) header [header] takes. *)
Definition role_row_kind (header : string) : RoleRowKind :=
  if includes header "superclass" then RowSuperclass
  else if includes header "subclass" then RowSubclass
  else if includes header "related concept" then RowRelatedConcept
  else if includes header "required context" then RowRequiredContext
  else if includes header "required owned" || includes header "required children"
    then RowRequiredOwned
  else if includes header "required state" || includes header "required properties"
    then RowRequiredState
  else if includes header "supported state" || includes header "supported properties"
    then RowSupportedState
  else if includes header "inherited state" then RowInheritedState
  else if includes header "prohibited state" || includes header "prohibited properties"
    then RowProhibitedState
  else if includes header "name from" then RowNameFrom
  else if includes header "accessible name required" then RowNameRequired
  else if includes header "children are presentational"
          || includes header "children presentational"
    then RowChildrenPresentational
  else if includes header "is abstract" then RowIsAbstract
  else if includes header "implicit value" then RowImplicitValue
  else RowIgnored.

(** [value.toLowerCase() === 'true']. *)
Definition is_true_text (value : string) : bool :=
  String.eqb (toLowerCase value) "true".

(** Lines 97-100: [const [prop, val] = match.split(':').map(s => s.trim());
    role.implicitValueForRole[prop] = val].  A match always contains a colon,
    so both pieces exist. *)
Definition set_implicit (o : JsObj string) (m : string) : JsObj string :=
  match trim <$> split ":"%char m with
  | prop :: val :: _ => obj_set o prop val
  | _ => o
  end.

(** Field assignments [role.f = x]. *)

Definition set_role_isAbstract (x : bool) (r : Role) : Role :=
  let '(mkRole n d ab sup sub rel ctx own req spt inh pro nf anr cp imp pr lp ap cat) := r in
  mkRole n d x sup sub rel ctx own req spt inh pro nf anr cp imp pr lp ap cat.

Definition set_role_superclassRoles (x : list string) (r : Role) : Role :=
  let '(mkRole n d ab sup sub rel ctx own req spt inh pro nf anr cp imp pr lp ap cat) := r in
  mkRole n d ab x sub rel ctx own req spt inh pro nf anr cp imp pr lp ap cat.

Definition set_role_subclassRoles (x : list string) (r : Role) : Role :=
  let '(mkRole n d ab sup sub rel ctx own req spt inh pro nf anr cp imp pr lp ap cat) := r in
  mkRole n d ab sup x rel ctx own req spt inh pro nf anr cp imp pr lp ap cat.

Definition set_role_relatedConcepts (x : list string) (r : Role) : Role :=
  let '(mkRole n d ab sup sub rel ctx own req spt inh pro nf anr cp imp pr lp ap cat) := r in
  mkRole n d ab sup sub x ctx own req spt inh pro nf anr cp imp pr lp ap cat.

Definition set_role_requiredContextRole (x : list string) (r : Role) : Role :=
  let '(mkRole n d ab sup sub rel ctx own req spt inh pro nf anr cp imp pr lp ap cat) := r in
  mkRole n d ab sup sub rel x own req spt inh pro nf anr cp imp pr lp ap cat.

Definition set_role_requiredOwnedElements (x : list string) (r : Role) : Role :=
  let '(mkRole n d ab sup sub rel ctx own req spt inh pro nf anr cp imp pr lp ap cat) := r in
  mkRole n d ab sup sub rel ctx x req spt inh pro nf anr cp imp pr lp ap cat.

Definition set_role_requiredStates (x : list string) (r : Role) : Role :=
  let '(mkRole n d ab sup sub rel ctx own req spt inh pro nf anr cp imp pr lp ap cat) := r in
  mkRole n d ab sup sub rel ctx own x spt inh pro nf anr cp imp pr lp ap cat.

Definition set_role_supportedStates (x : list string) (r : Role) : Role :=
  let '(mkRole n d ab sup sub rel ctx own req spt inh pro nf anr cp imp pr lp ap cat) := r in
  mkRole n d ab sup sub rel ctx own req x inh pro nf anr cp imp pr lp ap cat.

Definition set_role_inheritedStates (x : list string) (r : Role) : Role :=
  let '(mkRole n d ab sup sub rel ctx own req spt inh pro nf anr cp imp pr lp ap cat) := r in
  mkRole n d ab sup sub rel ctx own req spt x pro nf anr cp imp pr lp ap cat.

Definition set_role_prohibitedStates (x : list string) (r : Role) : Role :=
  let '(mkRole n d ab sup sub rel ctx own req spt inh pro nf anr cp imp pr lp ap cat) := r in
  mkRole n d ab sup sub rel ctx own req spt inh x nf anr cp imp pr lp ap cat.

Definition set_role_nameFrom (x : list string) (r : Role) : Role :=
  let '(mkRole n d ab sup sub rel ctx own req spt inh pro nf anr cp imp pr lp ap cat) := r in
  mkRole n d ab sup sub rel ctx own req spt inh pro x anr cp imp pr lp ap cat.

Definition set_role_accessibleNameRequired (x : bool) (r : Role) : Role :=
  let '(mkRole n d ab sup sub rel ctx own req spt inh pro nf anr cp imp pr lp ap cat) := r in
  mkRole n d ab sup sub rel ctx own req spt inh pro nf x cp imp pr lp ap cat.

Definition set_role_childrenPresentational (x : bool) (r : Role) : Role :=
  let '(mkRole n d ab sup sub rel ctx own req spt inh pro nf anr cp imp pr lp ap cat) := r in
  mkRole n d ab sup sub rel ctx own req spt inh pro nf anr x imp pr lp ap cat.

Definition set_role_implicitValueForRole (x : JsObj string) (r : Role) : Role :=
  let '(mkRole n d ab sup sub rel ctx own req spt inh pro nf anr cp imp pr lp ap cat) := r in
  mkRole n d ab sup sub rel ctx own req spt inh pro nf anr cp x pr lp ap cat.

Definition set_role_parentRoles (x : option (list string)) (r : Role) : Role :=
  let '(mkRole n d ab sup sub rel ctx own req spt inh pro nf anr cp imp pr lp ap cat) := r in
  mkRole n d ab sup sub rel ctx own req spt inh pro nf anr cp imp x lp ap cat.

Definition set_role_localProps (x : option (list PropEntry)) (r : Role) : Role :=
  let '(mkRole n d ab sup sub rel ctx own req spt inh pro nf anr cp imp pr lp ap cat) := r in
  mkRole n d ab sup sub rel ctx own req spt inh pro nf anr cp imp pr x ap cat.

Definition set_role_allProps (x : option (list PropEntry)) (r : Role) : Role :=
  let '(mkRole n d ab sup sub rel ctx own req spt inh pro nf anr cp imp pr lp ap cat) := r in
  mkRole n d ab sup sub rel ctx own req spt inh pro nf anr cp imp pr lp x cat.

Definition set_role_category (x : option string) (r : Role) : Role :=
  let '(mkRole n d ab sup sub rel ctx own req spt inh pro nf anr cp imp pr lp ap cat) := r in
  mkRole n d ab sup sub rel ctx own req spt inh pro nf anr cp imp pr lp ap x.

(** The body of the row callback, lines 62-102. *)
Definition role_row (role : Role) (row : TableRow) : Role :=
  let header := toLowerCase (cleanText (th_text row)) in
  let value := cleanText (td_text row) in
  match role_row_kind header with
  | RowSuperclass => set_role_superclassRoles (ref_list (td_role_refs row)) role
  | RowSubclass => set_role_subclassRoles (ref_list (td_role_refs row)) role
  | RowRelatedConcept => set_role_relatedConcepts (ref_list (td_concept_refs row)) role
  | RowRequiredContext => set_role_requiredContextRole (ref_list (td_role_refs row)) role
  | RowRequiredOwned => set_role_requiredOwnedElements (ref_list (td_role_refs row)) role
  | RowRequiredState => set_role_requiredStates (ref_list (td_attr_refs row)) role
  | RowSupportedState => set_role_supportedStates (ref_list (td_attr_refs row)) role
  | RowInheritedState => set_role_inheritedStates (ref_list (td_attr_refs row)) role
  | RowProhibitedState => set_role_prohibitedStates (ref_list (td_attr_refs row)) role
  | RowNameFrom => set_role_nameFrom (filter_Boolean (trim <$> split_list value)) role
  | RowNameRequired => set_role_accessibleNameRequired (is_true_text value) role
  | RowChildrenPresentational => set_role_childrenPresentational (is_true_text value) role
  | RowIsAbstract => set_role_isAbstract (is_true_text value) role
  | RowImplicitValue =>
      match td_implicit row with
      | Some matches =>
          set_role_implicitValueForRole
            (foldl set_implicit (implicitValueForRole role) matches) role
      | None => role
      end
  | RowIgnored => role
  end.

(** The role built from one [div.role] with identifier [id]. *)
Definition parse_role_block (id : string) (b : DefBlock) : Role :=
  foldl role_row (new_role id (cleanText (block_description b))) (block_rows b).

(** The body of the [each] callback, lines 37-105. *)
Definition parseRoles_step (roles : JsObj Role) (b : DefBlock) : JsObj Role :=
  match usable_id b with
  | None => roles
  | Some id => obj_set roles id (parse_role_block id b)
  end.

Definition parseRoles (doc : PrimaryDoc) : JsObj Role :=
  foldl parseRoles_step [] (role_blocks doc).

(** ** [parseStatesAndProperties], lines 114-170 *)

Record Attribute := mkAttr {
  attr_name : string;
  attr_type : string;
  attr_description : string;
  valueType : string;
  defaultValue : string;
  applicableRoles : list string;
  inheritedIntoRoles : list string;
  attr_relatedConcepts : list string;
  attr_values : list string;
  isGlobal : bool;
}.

Inductive AttrRowKind :=
  | RowValue | RowDefault | RowUsedIn | RowInheritedInto | RowAttrConcept | RowAttrIgnored.

(** The chain of lines 145-163. *)
Definition attr_row_kind (header : string) : AttrRowKind :=
  if includes header "value type" || includes header "value" then RowValue
  else if includes header "default" then RowDefault
  else if includes header "used in role" || includes header "applicable to" then RowUsedIn
  else if includes header "inherited into" then RowInheritedInto
  else if includes header "related concept" then RowAttrConcept
  else RowAttrIgnored.

Definition attr_row (attr : Attribute) (row : TableRow) : Attribute :=
  let header := toLowerCase (cleanText (th_text row)) in
  let value := cleanText (td_text row) in
  let '(mkAttr n ty d vt dv ar ii rc vs g) := attr in
  match attr_row_kind header with
  | RowValue =>
      match td_tokens row with
      | Some group1 =>
          mkAttr n ty d value dv ar ii rc (filter_Boolean (trim <$> split "|"%char group1)) g
      | None => mkAttr n ty d value dv ar ii rc vs g
      end
  | RowDefault => mkAttr n ty d vt value ar ii rc vs g
  | RowUsedIn =>
      mkAttr n ty d vt dv (ref_list (td_role_refs row)) ii rc vs
        (if includes (toLowerCase value) "all elements" then true else g)
  | RowInheritedInto => mkAttr n ty d vt dv ar (ref_list (td_role_refs row)) rc vs g
  | RowAttrConcept => mkAttr n ty d vt dv ar ii (ref_list (td_concept_refs row)) vs g
  | RowAttrIgnored => attr
  end.

Definition new_attr (id : string) (isState : bool) (description : string) : Attribute :=
  mkAttr id (if isState then "state" else "property") description "" "" [] [] [] [] false.

Definition parse_attr_block (id : string) (b : DefBlock) : Attribute :=
  foldl attr_row (new_attr id (block_is_state b) (cleanText (block_description b)))
    (block_rows b).

Definition parseAttrs_step (attributes : JsObj Attribute) (b : DefBlock) : JsObj Attribute :=
  match usable_id b with
  | None => attributes
  | Some id => obj_set attributes id (parse_attr_block id b)
  end.

Definition parseStatesAndProperties (doc : PrimaryDoc) : JsObj Attribute :=
  foldl parseAttrs_step [] (attr_blocks doc).

(** ** [categorizeRoles], lines 352-433 *)

(** The [categories] object of lines 353-361, fields in literal order. *)
Record Categories := mkCategories {
  cat_abstract : list string;
  cat_widget : list string;
  cat_document : list string;
  cat_landmark : list string;
  cat_liveRegion : list string;
  cat_window : list string;
  cat_composite : list string;
}.

Definition abstractRoleNames : list string :=
  ["roletype"; "structure"; "widget"; "window"; "input"; "range"; "command";
   "composite"; "section"; "sectionhead"; "select"; "landmark"].

Definition widgetRoleNames : list string :=
  ["button"; "checkbox"; "gridcell"; "link"; "menuitem"; "menuitemcheckbox";
   "menuitemradio"; "option"; "progressbar"; "radio"; "scrollbar"; "searchbox";
   "separator"; "slider"; "spinbutton"; "switch"; "tab"; "tabpanel"; "textbox";
   "treeitem"].

Definition compositeRoleNames : list string :=
  ["combobox"; "grid"; "listbox"; "menu"; "menubar"; "radiogroup"; "tablist";
   "tree"; "treegrid"].

(** Declared on lines 384-391 and never read. *)
Definition documentRoleNames : list string :=
  ["application"; "article"; "blockquote"; "caption"; "cell"; "code";
   "columnheader"; "definition"; "deletion"; "directory"; "document"; "emphasis";
   "feed"; "figure"; "generic"; "group"; "heading"; "img"; "insertion"; "list";
   "listitem"; "math"; "meter"; "none"; "note"; "paragraph"; "presentation";
   "row"; "rowgroup"; "rowheader"; "strong"; "subscript"; "superscript";
   "table"; "term"; "time"; "toolbar"; "tooltip"].

Definition landmarkRoleNames : list string :=
  ["banner"; "complementary"; "contentinfo"; "form"; "main"; "navigation";
   "region"; "search"].

Definition liveRegionRoleNames : list string :=
  ["alert"; "log"; "marquee"; "status"; "timer"].

Definition windowRoleNames : list string := ["alertdialog"; "dialog"].

(** [names.includes(roleName)] on an array of strings. *)
Definition array_includes (xs : list string) (x : string) : bool :=
  existsb (String.eqb x) xs.

(** [categories.c.push(roleName)] for each of the seven arrays. *)
Definition push_abstract (x : string) (c : Categories) : Categories :=
  let '(mkCategories ab wi do la li wn co) := c in mkCategories (ab ++ [x]) wi do la li wn co.
Definition push_widget (x : string) (c : Categories) : Categories :=
  let '(mkCategories ab wi do la li wn co) := c in mkCategories ab (wi ++ [x]) do la li wn co.
Definition push_document (x : string) (c : Categories) : Categories :=
  let '(mkCategories ab wi do la li wn co) := c in mkCategories ab wi (do ++ [x]) la li wn co.
Definition push_landmark (x : string) (c : Categories) : Categories :=
  let '(mkCategories ab wi do la li wn co) := c in mkCategories ab wi do (la ++ [x]) li wn co.
Definition push_liveRegion (x : string) (c : Categories) : Categories :=
  let '(mkCategories ab wi do la li wn co) := c in mkCategories ab wi do la (li ++ [x]) wn co.
Definition push_window (x : string) (c : Categories) : Categories :=
  let '(mkCategories ab wi do la li wn co) := c in mkCategories ab wi do la li (wn ++ [x]) co.
Definition push_composite (x : string) (c : Categories) : Categories :=
  let '(mkCategories ab wi do la li wn co) := c in mkCategories ab wi do la li wn (co ++ [x]).

(** [role.category = c], a mutation of the object stored in [roles]. *)
Definition assign_category (roles : JsObj Role) (roleName c : string) : JsObj Role :=
  obj_update roles roleName (set_role_category (Some c)).

(** The body of the [forEach] callback, lines 406-429.  [roleName] is an own
    key of [roles], so the lookup on line 406 finds its object. *)
Definition categorize_step (acc : Categories * JsObj Role) (roleName : string)
    : Categories * JsObj Role :=
  let '(categories, roles) := acc in
  match obj_get roles roleName with
  | None => acc
  | Some role =>
      if isAbstract role || array_includes abstractRoleNames roleName then
        (push_abstract roleName categories, assign_category roles roleName "abstract")
      else if array_includes landmarkRoleNames roleName then
        (push_landmark roleName categories, assign_category roles roleName "landmark")
      else if array_includes liveRegionRoleNames roleName then
        (push_liveRegion roleName categories, assign_category roles roleName "liveRegion")
      else if array_includes windowRoleNames roleName then
        (push_window roleName categories, assign_category roles roleName "window")
      else if array_includes compositeRoleNames roleName then
        (push_composite roleName categories, assign_category roles roleName "composite")
      else if array_includes widgetRoleNames roleName then
        (push_widget roleName categories, assign_category roles roleName "widget")
      else
        (push_document roleName categories, assign_category roles roleName "document")
  end.

(** [categorizeRoles(roles)]: the returned index together with [roles] as
    the call leaves it. *)
Definition categorizeRoles (roles : JsObj Role) : Categories * JsObj Role :=
  foldl categorize_step (mkCategories [] [] [] [] [] [] [], roles) (obj_keys roles).

(** ** The optional sources *)

Inductive ConsoleCall :=
  | console_log (args : list string)
  | console_warn (args : list string)
  | console_error (args : list string).

(** What [parseRoleInfoJS] finds, lines 175-197: no file; a file the
    assignment pattern does not match; a matched object literal whose
    evaluation throws with message [msg]; or the evaluated table, when all
    its entries have the shape [RoleInfoEntry].  [RoleInfoScript] below
    adds the tables with entries of another shape. *)
Inductive RoleInfoFile :=
  | RoleInfoMissing
  | RoleInfoUnmatched
  | RoleInfoThrows (msg : string)
  | RoleInfoTable (table : gmap string RoleInfoEntry).

Definition parseRoleInfoJS (file : RoleInfoFile)
    : gmap string RoleInfoEntry * list ConsoleCall :=
  match file with
  | RoleInfoMissing => (∅, [console_warn ["roleInfo.js not found, skipping"]])
  | RoleInfoUnmatched => (∅, [console_warn ["Could not parse roleInfo.js"]])
  | RoleInfoThrows msg => (∅, [console_warn ["Error parsing roleInfo.js:"; msg]])
  | RoleInfoTable table => (table, [])
  end.

Record AccName := mkAcc {
  acc_title : string;
  acc_abstract : string;
  acc_specUrl : string;
}.

(** [parseAccName], lines 231-246; [None] is the [null] it returns. *)
Definition parseAccName (file : option AccNameDoc) : option AccName * list ConsoleCall :=
  match file with
  | None => (None, [console_warn ["accname/index.html not found"]])
  | Some doc =>
      let title := cleanText (title_text doc) in
      (Some {| acc_title := if String.eqb title ""
                            then "Accessible Name and Description Computation"
                            else title;
               acc_abstract := cleanText (abstract_text doc);
               acc_specUrl := "https://w3c.github.io/accname/" |}, [])
  end.

Record HtmlMapping := mkMapping {
  mapping_element : string;
  implicitRole : string;
}.

(** The row callback of lines 270-281. *)
Definition mapping_row (mappings : JsObj HtmlMapping) (cells : list string)
    : JsObj HtmlMapping :=
  match cells with
  | c0 :: c1 :: _ =>
      let element := cleanText c0 in
      let role := cleanText c1 in
      if negb (String.eqb element "") && negb (String.eqb role "")
      then obj_set mappings element (mkMapping element role)
      else mappings
  | _ => mappings
  end.

(** The table callback of lines 265-283. *)
Definition mapping_table (mappings : JsObj HtmlMapping) (t : MappingTable)
    : JsObj HtmlMapping :=
  let caption := cleanText (caption_text t) in
  if includes (toLowerCase caption) "html element"
     || includes (toLowerCase caption) "role mapping"
  then foldl mapping_row mappings (body_rows t)
  else mappings.

(** [parseHtmlAam], lines 251-287. *)
Definition parseHtmlAam (file : option (list MappingTable))
    : JsObj HtmlMapping * list ConsoleCall :=
  match file with
  | None => ([], [console_warn ["html-aam/index.html not found"]])
  | Some tables => (foldl mapping_table [] tables, [])
  end.

Record ModuleRole := mkModuleRole {
  mrole_name : string;
  mrole_module : string;
  mrole_description : string;
}.

(** The [each] callback shared by lines 304-314 and 334-344. *)
Definition module_step (module : string) (roles : JsObj ModuleRole) (b : DefBlock)
    : JsObj ModuleRole :=
  match usable_id b with
  | None => roles
  | Some id => obj_set roles id (mkModuleRole id module (cleanText (block_description b)))
  end.

(** [parseDpubAria], lines 292-317. *)
Definition parseDpubAria (file : option ModuleDoc) : JsObj ModuleRole * list ConsoleCall :=
  match file with
  | None => ([], [console_warn ["dpub-aria/index.html not found"]])
  | Some doc => (foldl (module_step "dpub-aria") [] (module_role_blocks doc), [])
  end.

(** [parseGraphicsAria], lines 322-347. *)
Definition parseGraphicsAria (file : option ModuleDoc) : JsObj ModuleRole * list ConsoleCall :=
  match file with
  | None => ([], [console_warn ["graphics-aria/index.html not found"]])
  | Some doc => (foldl (module_step "graphics-aria") [] (module_role_blocks doc), [])
  end.

(** ** [main], lines 438-541 *)

(** The files under [data/] that a run reads, and the clock. *)
Record FileSystem := mkFs {
  dataDir : string;
  aria_index : option PrimaryDoc;              (* [aria/index.html] *)
  roleInfo_js : RoleInfoFile;                  (* [aria/common/script/roleInfo.js] *)
  accname_index : option AccNameDoc;           (* [aria/accname/index.html] *)
  html_aam_index : option (list MappingTable); (* [aria/html-aam/index.html] *)
  dpub_index : option ModuleDoc;               (* [aria/dpub-aria/index.html] *)
  graphics_index : option ModuleDoc;           (* [aria/graphics-aria/index.html] *)
  clock : string;                              (* [new Date().toISOString()] *)
}.

Record Metadata := mkMetadata {
  meta_version : string;
  generatedAt : string;
  sourceUrl : string;
  specUrl : string;
}.

Record Extensions := mkExtensions {
  dpub : JsObj ModuleRole;
  graphics : JsObj ModuleRole;
}.

Record ServerInfo := mkServerInfo {
  server_name : string;
  server_version : string;
  server_description : string;
}.

(** The [ariaData] literal of lines 507-532. *)
Record AriaData := mkAriaData {
  metadata : Metadata;
  roles : JsObj Role;
  roleCategories : Categories;
  states : JsObj Attribute;
  properties : JsObj Attribute;
  globalStatesAndProperties : list string;
  htmlMappings : JsObj HtmlMapping;
  extensions : Extensions;
  accname : option AccName;
  serverInfo : ServerInfo;
}.

(** What a run leaves: the console trace, the status passed to
    [process.exit] if it was called, and the file written, if any. *)
Record Run := mkRun {
  console : list ConsoleCall;
  exit_status : option nat;
  written : option (string * AriaData);
}.

Definition path_join (dir file : string) : string := dir +:+ "/" +:+ file.

Definition line_feed : string := String (ascii_of_nat 10) "".

(** The callback of lines 477-484. *)
Definition merge_step (roleInfo : gmap string RoleInfoEntry) (roles : JsObj Role)
    (entry : string * RoleInfoEntry) : JsObj Role :=
  let '(roleName, info) := entry in
  match obj_get roles roleName with
  | None => roles
  | Some _ =>
      obj_update roles roleName (λ role,
        set_role_allProps (Some (buildAllProps_top roleName roleInfo))
          (set_role_localProps (Some (default [] (localprops info)))
             (set_role_parentRoles (Some (default [] (parentRoles info))) role)))
  end.

(** [Object.entries(roleInfo).forEach(...)], lines 477-484.  Every entry
    touches only the role stored under its own key, so the order in which
    the entries are enumerated does not show in the result. *)
Definition merge_roleInfo (roleInfo : gmap string RoleInfoEntry) (roles : JsObj Role)
    : JsObj Role :=
  foldl (merge_step roleInfo) roles (map_to_list roleInfo).

(** The callback of lines 461-467. *)
Definition split_step (acc : JsObj Attribute * JsObj Attribute) (entry : string * Attribute)
    : JsObj Attribute * JsObj Attribute :=
  let '(states, properties) := acc in
  let '(name, attr) := entry in
  if String.eqb (attr_type attr) "state"
  then (obj_set states name attr, properties)
  else (states, obj_set properties name attr).

(** Lines 518-520: the keys whose attribute has [isGlobal] set, sorted by
    code units as [Array.prototype.sort] does without a comparator. *)
Definition global_index (statesAndProperties : JsObj Attribute) : list string :=
  merge_sort String.le
    (List.filter
       (λ name, match obj_get statesAndProperties name with
                | Some attr => isGlobal attr
                | None => false
                end)
       (obj_keys statesAndProperties)).

Definition found (n : nat) (what : string) : ConsoleCall :=
  console_log ["  Found " +:+ pretty n +:+ " " +:+ what].

(** [main] in an environment of well-shaped files, where no step after
    the check of line 443 can throw; [main_catch] below is the run in any
    environment. *)
Definition main (fs : FileSystem) : Run :=
  let ariaDir := path_join (dataDir fs) "aria" in
  let ariaHtmlPath := path_join ariaDir "index.html" in
  let banner := console_log ["Parsing ARIA Specification..." +:+ line_feed] in
  match aria_index fs with
  | None =>
      {| console := [banner; console_error ["ARIA index.html not found at:"; ariaHtmlPath]];
         exit_status := Some 1;
         written := None |}
  | Some doc =>
      let roles0 := parseRoles doc in
      let statesAndProperties := parseStatesAndProperties doc in
      let by_type := foldl split_step ([], []) statesAndProperties in
      let states := by_type.1 in
      let properties := by_type.2 in
      let roleInfo_result := parseRoleInfoJS (roleInfo_js fs) in
      let roleInfo := roleInfo_result.1 in
      let roles1 := merge_roleInfo roleInfo roles0 in
      let categorized := categorizeRoles roles1 in
      let categories := categorized.1 in
      let roles2 := categorized.2 in
      let accname_result := parseAccName (accname_index fs) in
      let htmlAam_result := parseHtmlAam (html_aam_index fs) in
      let htmlMappings := htmlAam_result.1 in
      let dpub_result := parseDpubAria (dpub_index fs) in
      let dpubRoles := dpub_result.1 in
      let graphics_result := parseGraphicsAria (graphics_index fs) in
      let graphicsRoles := graphics_result.1 in
      let ariaData :=
        {| metadata := {| meta_version := "1.3"; generatedAt := clock fs;
                          sourceUrl := "https://github.com/w3c/aria";
                          specUrl := "https://w3c.github.io/aria/" |};
           roles := roles2;
           roleCategories := categories;
           states := states;
           properties := properties;
           globalStatesAndProperties := global_index statesAndProperties;
           htmlMappings := htmlMappings;
           extensions := {| dpub := dpubRoles; graphics := graphicsRoles |};
           accname := accname_result.1;
           serverInfo :=
             {| server_name := "aria-mcp"; server_version := "1.0.0";
                server_description :=
                  "ARIA specification MCP server for accessibility professionals and AI agents" |}
        |} in
      let outputPath := path_join (dataDir fs) "aria-data.json" in
      {| console :=
           [banner; console_log ["Parsing roles..."];
            found (length (obj_keys roles0)) "roles";
            console_log ["Parsing states and properties..."];
            found (length (obj_keys states)) "states";
            found (length (obj_keys properties)) "properties";
            console_log ["Parsing roleInfo.js..."]]
           ++ roleInfo_result.2
           ++ [found (size roleInfo) "role entries";
               console_log ["Categorizing roles..."];
               console_log ["Parsing AccName..."]]
           ++ accname_result.2
           ++ [console_log ["Parsing HTML-AAM..."]]
           ++ htmlAam_result.2
           ++ [found (length (obj_keys htmlMappings)) "HTML element mappings";
               console_log ["Parsing DPUB-ARIA..."]]
           ++ dpub_result.2
           ++ [found (length (obj_keys dpubRoles)) "DPUB roles";
               console_log ["Parsing Graphics-ARIA..."]]
           ++ graphics_result.2
           ++ [found (length (obj_keys graphicsRoles)) "Graphics roles";
               console_log [line_feed +:+ "Generated " +:+ outputPath];
               console_log ["Done!"]];
         exit_status := None;
         written := Some (outputPath, ariaData) |}
  end.
(** ** [roleInfo.js] values of any shape, and the top-level [catch]

    [RoleInfoEntry] describes the entries the parser is written for.  The
    object literal of [roleInfo.js] can evaluate, without throwing, to an
    object with other entries; [parseRoleInfoJS] returns it as it is (line
    192), and lines 479, 210 and 214 then throw a [TypeError] outside the
    [try] of lines 190-196.  The throw rejects the promise of [main], and
    line 543, [main().catch(console.error)], prints it: nothing is written
    and [process.exit] is not called. *)

(** An entry of the evaluated object, by what lines 207-214 and 479 do
    with it.  (An entry that is a number, a string or a boolean has none of
    the three fields and behaves as the [raw_object] without fields.)  Not
    described: an array [allprops] beside a [localprops] or [parentRoles]
    that is not an array, which line 479 or 480 copies into the role
    record; a string, which can be iterated, in the place of an array; and
    arrays whose elements are of another kind. *)
Inductive RawEntry :=
  | raw_null
      (* [null] or [undefined]: [!role] holds at line 207, and
         [info.parentRoles] throws at line 479 *)
  | raw_not_iterable
      (* an object whose [allprops] is a truthy value that cannot be
         iterated, or without [allprops] whose [localprops] or [parentRoles]
         is such a value, as in [{ parentRoles: 5 }]: lines 479-480 copy
         the fields, the spread of line 210 or the loop of line 214 throws *)
  | raw_object (entry : RoleInfoEntry).

(** The outcome of code that may throw. *)
Inductive Attempt (A : Type) :=
  | returned (a : A)
  | threw.
#[global] Arguments returned {A} a.
#[global] Arguments threw {A}.

(** Lines 214-222 when the recursive call may throw. *)
Fixpoint for_parents_raw
    (rec : string → gset string → option (Attempt (list PropEntry * gset string)))
    (parents : list string) (props : list PropEntry) (visited : gset string)
    : option (Attempt (list PropEntry * gset string)) :=
  match parents with
  | [] => Some (returned (props, visited))
  | parentName :: rest =>
      match rec parentName visited with
      | None => None
      | Some threw => Some threw
      | Some (returned (parentProps, visited')) =>
          for_parents_raw rec rest (push_missing props parentProps) visited'
      end
  end.

(** [buildAllProps], lines 202-226, on entries of any shape; [None] is
    "budget exhausted", as in [buildAllProps_fuel]. *)
Fixpoint buildAllProps_raw_fuel (fuel : nat) (roleName : string)
    (roleInfo : gmap string RawEntry) (visited : gset string)
    : option (Attempt (list PropEntry * gset string)) :=
  match fuel with
  | 0 => None
  | S fuel' =>
      if decide (roleName ∈ visited) then Some (returned ([], visited))
      else
        let visited := {[roleName]} ∪ visited in
        match roleInfo !! roleName with
        | None => Some (returned ([], visited))
        | Some raw_null => Some (returned ([], visited))
        | Some raw_not_iterable => Some threw
        | Some (raw_object role) =>
            match allprops role with
            | Some own => Some (returned (own, visited))
            | None =>
                let props := default [] (localprops role) in
                match parentRoles role with
                | None => Some (returned (props, visited))
                | Some parents =>
                    for_parents_raw
                      (λ parentName v, buildAllProps_raw_fuel fuel' parentName roleInfo v)
                      parents props visited
                end
            end
        end
  end.

Definition buildAllProps_raw (roleName : string) (roleInfo : gmap string RawEntry)
    (visited : gset string) : option (Attempt (list PropEntry * gset string)) :=
  buildAllProps_raw_fuel (S (size roleInfo)) roleName roleInfo visited.

(** The call of line 482. *)
Definition buildAllProps_raw_top (roleName : string) (roleInfo : gmap string RawEntry)
    : Attempt (list PropEntry) :=
  match buildAllProps_raw roleName roleInfo ∅ with
  | Some (returned (props, _)) => returned props
  | Some threw => threw
  | None => returned []
  end.

(** Lines 479-482 for one entry whose role exists: what they do to the
    role record, unless they throw. *)
Definition merge_entry_raw (roleInfo : gmap string RawEntry) (roleName : string)
    (info : RawEntry) : Attempt (Role → Role) :=
  match info with
  | raw_null => threw                 (* line 479 *)
  | raw_not_iterable => threw         (* line 482, from line 210 or 214 *)
  | raw_object info =>
      match buildAllProps_raw_top roleName roleInfo with
      | threw => threw                (* line 482, from an inherited entry *)
      | returned props =>
          returned (λ role,
            set_role_allProps (Some props)
              (set_role_localProps (Some (default [] (localprops info)))
                 (set_role_parentRoles (Some (default [] (parentRoles info))) role)))
      end
  end.

(** The callback of lines 477-484; once an entry has thrown, [forEach]
    calls it for no further entry. *)
Definition merge_step_raw (roleInfo : gmap string RawEntry) (acc : Attempt (JsObj Role))
    (entry : string * RawEntry) : Attempt (JsObj Role) :=
  let '(roleName, info) := entry in
  match acc with
  | threw => threw
  | returned roles =>
      match obj_get roles roleName with
      | None => returned roles
      | Some _ =>
          match merge_entry_raw roleInfo roleName info with
          | threw => threw
          | returned change => returned (obj_update roles roleName change)
          end
      end
  end.

Definition merge_raw (roleInfo : gmap string RawEntry) (roles : JsObj Role)
    : Attempt (JsObj Role) :=
  foldl (merge_step_raw roleInfo) (returned roles) (map_to_list roleInfo).

(** What [parseRoleInfoJS] finds, as [RoleInfoFile], with an evaluated
    object of any shape. *)
Inductive RoleInfoScript :=
  | ScriptMissing
  | ScriptUnmatched
  | ScriptThrows (msg : string)
  | ScriptValue (value : gmap string RawEntry).

Definition parseRoleInfoJS_raw (file : RoleInfoScript)
    : gmap string RawEntry * list ConsoleCall :=
  match file with
  | ScriptMissing => (∅, [console_warn ["roleInfo.js not found, skipping"]])
  | ScriptUnmatched => (∅, [console_warn ["Could not parse roleInfo.js"]])
  | ScriptThrows msg => (∅, [console_warn ["Error parsing roleInfo.js:"; msg]])
  | ScriptValue value => (value, [])
  end.

(** The files and the clock as in [FileSystem], with a [roleInfo.js] of any
    shape, and the text [console.error] prints for a [TypeError]. *)
Record Environment := mkEnvironment {
  env_dataDir : string;
  env_aria_index : option PrimaryDoc;
  env_roleInfo_js : RoleInfoScript;
  env_accname_index : option AccNameDoc;
  env_html_aam_index : option (list MappingTable);
  env_dpub_index : option ModuleDoc;
  env_graphics_index : option ModuleDoc;
  env_clock : string;
  env_thrown : string;
}.

(** [main().catch(console.error)], line 543: the run of [main], lines
    438-541, in an environment whose [roleInfo.js] may have any shape.
    [main] above is this run for the environments [typed_environment]
    describes, see [main_catch_typed]. *)
Definition main_catch (env : Environment) : Run :=
  let ariaDir := path_join (env_dataDir env) "aria" in
  let ariaHtmlPath := path_join ariaDir "index.html" in
  let banner := console_log ["Parsing ARIA Specification..." +:+ line_feed] in
  match env_aria_index env with
  | None =>
      {| console := [banner; console_error ["ARIA index.html not found at:"; ariaHtmlPath]];
         exit_status := Some 1;
         written := None |}
  | Some doc =>
      let roles0 := parseRoles doc in
      let statesAndProperties := parseStatesAndProperties doc in
      let by_type := foldl split_step ([], []) statesAndProperties in
      let states := by_type.1 in
      let properties := by_type.2 in
      let roleInfo_result := parseRoleInfoJS_raw (env_roleInfo_js env) in
      let roleInfo := roleInfo_result.1 in
      let before_merge :=
        [banner; console_log ["Parsing roles..."];
         found (length (obj_keys roles0)) "roles";
         console_log ["Parsing states and properties..."];
         found (length (obj_keys states)) "states";
         found (length (obj_keys properties)) "properties";
         console_log ["Parsing roleInfo.js..."]]
        ++ roleInfo_result.2
        ++ [found (size roleInfo) "role entries"] in
      match merge_raw roleInfo roles0 with
      | threw =>
          {| console := before_merge ++ [console_error [env_thrown env]];
             exit_status := None;
             written := None |}
      | returned roles1 =>
          let categorized := categorizeRoles roles1 in
          let categories := categorized.1 in
          let roles2 := categorized.2 in
          let accname_result := parseAccName (env_accname_index env) in
          let htmlAam_result := parseHtmlAam (env_html_aam_index env) in
          let htmlMappings := htmlAam_result.1 in
          let dpub_result := parseDpubAria (env_dpub_index env) in
          let dpubRoles := dpub_result.1 in
          let graphics_result := parseGraphicsAria (env_graphics_index env) in
          let graphicsRoles := graphics_result.1 in
          let ariaData :=
            {| metadata := {| meta_version := "1.3"; generatedAt := env_clock env;
                              sourceUrl := "https://github.com/w3c/aria";
                              specUrl := "https://w3c.github.io/aria/" |};
               roles := roles2;
               roleCategories := categories;
               states := states;
               properties := properties;
               globalStatesAndProperties := global_index statesAndProperties;
               htmlMappings := htmlMappings;
               extensions := {| dpub := dpubRoles; graphics := graphicsRoles |};
               accname := accname_result.1;
               serverInfo :=
                 {| server_name := "aria-mcp"; server_version := "1.0.0";
                    server_description :=
                      "ARIA specification MCP server for accessibility professionals and AI agents" |}
            |} in
          let outputPath := path_join (env_dataDir env) "aria-data.json" in
          {| console :=
               before_merge
               ++ [console_log ["Categorizing roles..."];
                   console_log ["Parsing AccName..."]]
               ++ accname_result.2
               ++ [console_log ["Parsing HTML-AAM..."]]
               ++ htmlAam_result.2
               ++ [found (length (obj_keys htmlMappings)) "HTML element mappings";
                   console_log ["Parsing DPUB-ARIA..."]]
               ++ dpub_result.2
               ++ [found (length (obj_keys dpubRoles)) "DPUB roles";
                   console_log ["Parsing Graphics-ARIA..."]]
               ++ graphics_result.2
               ++ [found (length (obj_keys graphicsRoles)) "Graphics roles";
                   console_log [line_feed +:+ "Generated " +:+ outputPath];
                   console_log ["Done!"]];
             exit_status := None;
             written := Some (outputPath, ariaData) |}
      end
  end.

(** A [RoleInfoFile] as a [RoleInfoScript], and a [FileSystem] as an
    [Environment]: every entry is a [raw_object]. *)
Definition typed_script (file : RoleInfoFile) : RoleInfoScript :=
  match file with
  | RoleInfoMissing => ScriptMissing
  | RoleInfoUnmatched => ScriptUnmatched
  | RoleInfoThrows msg => ScriptThrows msg
  | RoleInfoTable table => ScriptValue (raw_object <$> table)
  end.

Definition typed_environment (fs : FileSystem) (thrown : string) : Environment :=
  {| env_dataDir := dataDir fs;
     env_aria_index := aria_index fs;
     env_roleInfo_js := typed_script (roleInfo_js fs);
     env_accname_index := accname_index fs;
     env_html_aam_index := html_aam_index fs;
     env_dpub_index := dpub_index fs;
     env_graphics_index := graphics_index fs;
     env_clock := clock fs;
     env_thrown := thrown |}.

(** * Notions used to state the properties *)

(** ** Property names and name-based de-duplication *)

Definition names (ps : list PropEntry) : list string := prop_name <$> ps.

Definition nameset (ps : list PropEntry) : gset string := list_to_set (names ps).
#[global] Arguments nameset : simpl never.

(** The entries of [ps] whose name is neither in [seen] nor carried by an
    earlier entry of [ps], in the order of [ps]. *)
Fixpoint first_by_name (seen : gset string) (ps : list PropEntry) : list PropEntry :=
  match ps with
  | [] => []
  | p :: rest =>
      if decide (prop_name p ∈ seen) then first_by_name seen rest
      else p :: first_by_name ({[prop_name p]} ∪ seen) rest
  end.

(** Keep the first entry of every name, drop the later ones. *)
Definition dedupByName (ps : list PropEntry) : list PropEntry := first_by_name ∅ ps.

(** ** The resolver's view of the table *)

(** The number of table entries not yet visited: what bounds the recursion. *)
Definition unvisited (roleInfo : gmap string RoleInfoEntry) (visited : gset string) : nat :=
  size (dom roleInfo ∖ visited).

(** The list a role starts from, line 210: its [allprops] when the table
    supplies one, else its [localprops], else nothing; a name without an
    entry contributes nothing. *)
Definition own_list (roleInfo : gmap string RoleInfoEntry) (roleName : string)
    : list PropEntry :=
  match roleInfo !! roleName with
  | None => []
  | Some role =>
      match allprops role with
      | Some own => own
      | None => default [] (localprops role)
      end
  end.

(** The list a call starts from: nothing when the cycle guard fires. *)
Definition start_list (roleInfo : gmap string RoleInfoEntry) (roleName : string)
    (visited : gset string) : list PropEntry :=
  if decide (roleName ∈ visited) then [] else own_list roleInfo roleName.

(** The edges the resolver follows, line 213: from a role without
    [allprops] to each name in its [parentRoles]. *)
Definition follows (roleInfo : gmap string RoleInfoEntry) (roleName parentName : string)
    : Prop :=
  ∃ role parents,
    roleInfo !! roleName = Some role ∧ allprops role = None
    ∧ parentRoles role = Some parents ∧ parentName ∈ parents.

(** [p] is listed in the [parentRoles] of [r]. *)
Definition declared_parent (roleInfo : gmap string RoleInfoEntry) (r p : string) : Prop :=
  ∃ role parents,
    roleInfo !! r = Some role ∧ parentRoles role = Some parents ∧ p ∈ parents.

(** No role is its own ancestor. *)
Definition acyclic (roleInfo : gmap string RoleInfoEntry) : Prop :=
  ∀ r, ¬ tc (declared_parent roleInfo) r r.

(** The facts about one call [buildAllProps(roleName, roleInfo, visited)]
    that returned [props] and left [visited'] behind. *)
Record visit_ok (roleInfo : gmap string RoleInfoEntry) (roleName : string)
    (visited : gset string) (props : list PropEntry) (visited' : gset string) : Prop := {
  visit_mono : visited ⊆ visited';
  visit_self : roleName ∈ visited';
  visit_closed : ∀ n m, n ∈ visited' → n ∉ visited → follows roleInfo n m → m ∈ visited';
  visit_reach : ∀ n, n ∈ visited' → n ∉ visited → rtc (follows roleInfo) roleName n;
  visit_names : ∀ x, x ∈ names props ↔
                     (∃ n, n ∈ visited' ∧ (n ∉ visited) ∧ x ∈ names (own_list roleInfo n));
}.

(** ** The pre-order list of contributions

    The specification words the resolver's result as "first occurrence by
    recursive pre-order wins".  [contributions] is that pre-order list with
    nothing dropped: the role's own list, then what each parent contributes,
    parents in declared order, under the same visited-set discipline. *)

Fixpoint collect_parents (rec : string → gset string → option (list PropEntry * gset string))
    (parents : list string) (acc : list PropEntry) (visited : gset string)
    : option (list PropEntry * gset string) :=
  match parents with
  | [] => Some (acc, visited)
  | parentName :: rest =>
      match rec parentName visited with
      | None => None
      | Some (parentProps, visited') =>
          collect_parents rec rest (acc ++ parentProps) visited'
      end
  end.

Fixpoint contributions_fuel (fuel : nat) (roleName : string)
    (roleInfo : gmap string RoleInfoEntry) (visited : gset string)
    : option (list PropEntry * gset string) :=
  match fuel with
  | 0 => None
  | S fuel' =>
      if decide (roleName ∈ visited) then Some ([], visited)
      else
        let visited := {[roleName]} ∪ visited in
        match roleInfo !! roleName with
        | None => Some ([], visited)
        | Some role =>
            match allprops role with
            | Some own => Some (own, visited)
            | None =>
                match parentRoles role with
                | None => Some (default [] (localprops role), visited)
                | Some parents =>
                    collect_parents (λ parentName v, contributions_fuel fuel' parentName roleInfo v)
                      parents (default [] (localprops role)) visited
                end
            end
        end
  end.

Definition contributions (roleName : string) (roleInfo : gmap string RoleInfoEntry)
    (visited : gset string) : option (list PropEntry * gset string) :=
  contributions_fuel (S (size roleInfo)) roleName roleInfo visited.

(** [props] is [raw] with the starting list [own] kept whole and, after it,
    only the first entry of every name not in [own]. *)
Definition merged_from (own props raw : list PropEntry) : Prop :=
  ∃ rest, raw = own ++ rest ∧ props = own ++ first_by_name (nameset own) rest.

(** ** Categories *)

Inductive RoleCategory :=
  | Abstract | Widget | Composite | Document | Landmark | LiveRegion | Window.

#[global] Instance RoleCategory_eq_dec : EqDecision RoleCategory.
Proof. solve_decision. Defined.

(** The key of a category in [roleCategories], which is also the string
    stored in a role's [category] field. *)
Definition category_key (c : RoleCategory) : string :=
  match c with
  | Abstract => "abstract" | Widget => "widget" | Composite => "composite"
  | Document => "document" | Landmark => "landmark" | LiveRegion => "liveRegion"
  | Window => "window"
  end.

Definition cat_list (c : RoleCategory) (cs : Categories) : list string :=
  match c with
  | Abstract => cat_abstract cs | Widget => cat_widget cs | Composite => cat_composite cs
  | Document => cat_document cs | Landmark => cat_landmark cs
  | LiveRegion => cat_liveRegion cs | Window => cat_window cs
  end.

(** The rules of the specification, in its order (a) to (f). *)
Definition category_rules : list ((Role → string → bool) * RoleCategory) :=
  [ (λ role n, isAbstract role || array_includes abstractRoleNames n, Abstract);
    (λ _ n, array_includes landmarkRoleNames n, Landmark);
    (λ _ n, array_includes liveRegionRoleNames n, LiveRegion);
    (λ _ n, array_includes windowRoleNames n, Window);
    (λ _ n, array_includes compositeRoleNames n, Composite);
    (λ _ n, array_includes widgetRoleNames n, Widget) ].

(** The category of the first rule that matches, [Document] when none does. *)
Definition first_match (role : Role) (roleName : string) : RoleCategory :=
  match List.find (λ rule, rule.1 role roleName) category_rules with
  | Some rule => rule.2
  | None => Document
  end.

(** [categories.c.push(x)] with the array chosen by [c]. *)
Definition cat_push (c : RoleCategory) (x : string) (cs : Categories) : Categories :=
  match c with
  | Abstract => push_abstract x cs | Widget => push_widget x cs
  | Composite => push_composite x cs | Document => push_document x cs
  | Landmark => push_landmark x cs | LiveRegion => push_liveRegion x cs
  | Window => push_window x cs
  end.

(** The category the ordered rules give to the role stored under a key. *)
Definition category_of (roles : JsObj Role) (roleName : string) : option RoleCategory :=
  (λ role, first_match role roleName) <$> obj_get roles roleName.

(** What categorization does to the record of a key it has visited. *)
Definition categorized (roleName : string) (role : Role) : Role :=
  set_role_category (Some (category_key (first_match role roleName))) role.

(** ** Reading the extractor's input *)

#[global] Instance RoleRowKind_eq_dec : EqDecision RoleRowKind.
Proof. solve_decision. Defined.

#[global] Instance AttrRowKind_eq_dec : EqDecision AttrRowKind.
Proof. solve_decision. Defined.

(** The header the row callbacks compute. *)
Definition row_header (row : TableRow) : string := toLowerCase (cleanText (th_text row)).

(** The cell text the row callbacks compute. *)
Definition row_value (row : TableRow) : string := cleanText (td_text row).

(** The value cell of the last row of [b] that takes branch [kind]. *)
Definition last_cell (kind : RoleRowKind) (b : DefBlock) : option string :=
  row_value <$>
    last (List.filter (λ row, bool_decide (role_row_kind (row_header row) = kind))
            (block_rows b)).

(** Some applicability row of [b] has a cell that contains
    [all elements], whatever the case of its letters. *)
Definition signals_all_elements (b : DefBlock) : bool :=
  existsb (λ row, bool_decide (attr_row_kind (row_header row) = RowUsedIn)
                  && includes (toLowerCase (row_value row)) "all elements")
    (block_rows b).

(** The last block that defines [name]: the one whose record is kept. *)
Definition defining_block (blocks : list DefBlock) (name : string) : option DefBlock :=
  last (List.filter (λ b, bool_decide (usable_id b = Some name)) blocks).

(** A table of the mapping document whose caption is recognised, line 268. *)
Definition recognised (t : MappingTable) : bool :=
  let caption := cleanText (caption_text t) in
  includes (toLowerCase caption) "html element"
  || includes (toLowerCase caption) "role mapping".

(** [fs] with its two extension-module documents replaced. *)
Definition with_modules (fs : FileSystem) (dpubDoc graphicsDoc : option ModuleDoc)
    : FileSystem :=
  {| dataDir := dataDir fs; aria_index := aria_index fs; roleInfo_js := roleInfo_js fs;
     accname_index := accname_index fs; html_aam_index := html_aam_index fs;
     dpub_index := dpubDoc; graphics_index := graphicsDoc; clock := clock fs |}.


(** The table a run resolves against: empty unless [roleInfo.js] evaluates. *)
Definition loaded_table (file : RoleInfoFile) : gmap string RoleInfoEntry :=
  match file with
  | RoleInfoTable table => table
  | _ => ∅
  end.

(** The module-scoped entry made from a block of module [module]. *)
Definition module_entry (module name : string) (b : DefBlock) : ModuleRole :=
  mkModuleRole name module (cleanText (block_description b)).

(** The blocks of a module document, none when the file is missing. *)
Definition module_blocks (file : option ModuleDoc) : list DefBlock :=
  match file with
  | Some doc => module_role_blocks doc
  | None => []
  end.


(** ** Worked inputs *)

(** A row with plain text in its header and value cells. *)
Definition cell_row (th td : string) : TableRow := mkRow th td [] [] [] None None.

(** A row whose value cell holds role references. *)
Definition ref_row (th td : string) (refs : list string) : TableRow :=
  mkRow th td refs refs refs None None.

Definition not_true_block : DefBlock :=
  mkBlock (Some "command") false "A form of widget."
    [ref_row "Superclass Role:" "widget" ["widget"];
     cell_row "Is abstract" "not true"].

(** Two rows drive [isAbstract]; the first one says [True]. *)
Definition overridden_block : DefBlock :=
  mkBlock (Some "widget") false "An interactive component."
    [cell_row "Is abstract:" "True"; cell_row "Is abstract:" "False"].

Definition any_element_block : DefBlock :=
  mkBlock (Some "aria-any") false "An example property."
    [cell_row "Used in Roles:" "Any element"].

Definition all_elements_block : DefBlock :=
  mkBlock (Some "aria-all") false "A global property."
    [cell_row "Used in Roles:" "All elements of the base markup"].

Definition some_roles_block : DefBlock :=
  mkBlock (Some "aria-some") true "A state of two roles."
    [ref_row "Used in Roles:" "button, link" ["button"; "link"]].

Definition sample_doc : PrimaryDoc :=
  mkPrimary
    [not_true_block;
     mkBlock (Some "doc-example") false "A primary role." []]
    [any_element_block; all_elements_block; some_roles_block].

(** All optional sources present; the mapping document has one table whose
    caption is not a recognised one, the modules both define
    [doc-example]. *)
Definition sample_fs : FileSystem :=
  {| dataDir := "/srv/aria-mcp/data";
     aria_index := Some sample_doc;
     roleInfo_js := RoleInfoTable ∅;
     accname_index := Some (mkAccName "Accessible Name" "How names are computed.");
     html_aam_index := Some [mkTable "Attribute summary" [["a"; "link"]]];
     dpub_index := Some (mkModule [mkBlock (Some "doc-example") false "A DPUB role." []]);
     graphics_index :=
       Some (mkModule [mkBlock (Some "doc-example") false "A graphics role." []]);
     clock := "2024-01-01T00:00:00.000Z" |}.


Definition plain (name : string) : PropEntry := mkProp None name None None None.

Definition required_prop (name : string) : PropEntry :=
  mkProp None name (Some true) None None.

(** The scenario of the specification: [switch] declares [aria-checked]
    locally and inherits from [checkbox]. *)
Definition switch_table : gmap string RoleInfoEntry :=
  {[ "switch" := mkInfo (Some ["checkbox"]) (Some [required_prop "aria-checked"]) None;
     "checkbox" := mkInfo None
                     (Some [required_prop "aria-checked"; plain "aria-label"]) None ]}.

(** A role with a precomputed [allprops] and a declared parent. *)
Definition precomputed_table : gmap string RoleInfoEntry :=
  {[ "child" := mkInfo (Some ["base"]) None (Some [plain "aria-own"]);
     "base" := mkInfo None (Some [plain "aria-base"]) None ]}.

(** A role whose own list names one property twice. *)
Definition repeated_table : gmap string RoleInfoEntry :=
  {[ "child" := mkInfo (Some ["base"]) (Some [plain "aria-x"; required_prop "aria-x"]) None;
     "base" := mkInfo None (Some [plain "aria-base"]) None ]}.

(** Parent references that loop: [a] lists itself and [b], [b] lists [a]. *)
Definition cyclic_table : gmap string RoleInfoEntry :=
  {[ "a" := mkInfo (Some ["a"; "b"]) (Some [plain "aria-a"]) None;
     "b" := mkInfo (Some ["a"]) (Some [plain "aria-b"]) None ]}.


(** ** Notions used by the further properties *)

(** Every entry of [props] sits in the own list of a role visited between
    [visited] and [visited']. *)
Definition entries_from (roleInfo : gmap string RoleInfoEntry) (visited : gset string)
    (props : list PropEntry) (visited' : gset string) : Prop :=
  ∀ e, e ∈ props → ∃ n, n ∈ visited' ∧ (n ∉ visited) ∧ e ∈ own_list roleInfo n.

(** Every code unit of [s] passes the test [P]. *)
Fixpoint all_chars (P : ascii → bool) (s : string) : bool :=
  match s with
  | EmptyString => true
  | String c rest => P c && all_chars P rest
  end.

(** White space in [s] is the single blank: no other white-space unit, no
    two blanks in a row, and no blank first when [after_blank] is set. *)
Fixpoint single_spaced (after_blank : bool) (s : string) : bool :=
  match s with
  | EmptyString => true
  | String c rest =>
      if is_space c
      then Ascii.eqb c " " && negb after_blank && single_spaced true rest
      else single_spaced false rest
  end.

(** A separator of [value.split(/[,\s]+/)]. *)
Definition is_list_separator (c : ascii) : bool := is_space c || Ascii.eqb c ",".

(** A non-empty text that cleaning leaves as it is. *)
Definition clean_name (s : string) : Prop := s ≠ "" ∧ cleanText s = s.

(** The fields of a role that are filled from reference elements of a cell. *)
Definition reference_lists (role : Role) : list (list string) :=
  [superclassRoles role; subclassRoles role; relatedConcepts role;
   requiredContextRole role; requiredOwnedElements role; requiredStates role;
   supportedStates role; inheritedStates role; prohibitedStates role].

(** The fields of an attribute that are filled from reference elements. *)
Definition attr_reference_lists (attr : Attribute) : list (list string) :=
  [applicableRoles attr; inheritedIntoRoles attr; attr_relatedConcepts attr].

(** A non-empty token without comma or white space. *)
Definition list_token (s : string) : Prop :=
  s ≠ "" ∧ all_chars (λ c, negb (is_list_separator c)) s = true.

(** The rows the mapping parser looks at: the body rows of the tables with
    a recognised caption, in document order. *)
Definition mapping_rows (tables : list MappingTable) : list (list string) :=
  concat (body_rows <$> List.filter recognised tables).

(** The element a row maps, lines 272-275: the cleaned first cell of a row
    with at least two cells whose first two cells are both non-empty once
    cleaned. *)
Definition row_element (cells : list string) : option string :=
  match cells with
  | c0 :: c1 :: _ =>
      if negb (String.eqb (cleanText c0) "") && negb (String.eqb (cleanText c1) "")
      then Some (cleanText c0) else None
  | _ => None
  end.

(** The mapping such a row gives for [element]. *)
Definition row_mapping (element : string) (cells : list string) : HtmlMapping :=
  mkMapping element (cleanText (nth 1 cells "")).

Definition checkbox_block : DefBlock :=
  mkBlock (Some "checkbox") false "A checkable input."
    [cell_row "Name From:" "contents, author"].

Definition switch_block : DefBlock :=
  mkBlock (Some "switch") false "A type of checkbox."
    [ref_row "Superclass Role:" "checkbox" ["checkbox"]].

(** A primary document with the two roles of [switch_table], and a run
    that has the table and none of the other optional sources. *)
Definition switch_doc : PrimaryDoc := mkPrimary [checkbox_block; switch_block] [].

Definition switch_fs : FileSystem :=
  {| dataDir := "/srv/aria-mcp/data";
     aria_index := Some switch_doc;
     roleInfo_js := RoleInfoTable switch_table;
     accname_index := None;
     html_aam_index := None;
     dpub_index := None;
     graphics_index := None;
     clock := "2024-01-01T00:00:00.000Z" |}.

(** A non-empty enumerated value: trimmed, and without a bar. *)
Definition value_token (s : string) : Prop :=
  s ≠ "" ∧ trim s = s ∧ all_chars (λ c, negb (Ascii.eqb c "|")) s = true.

(** ** When the merge of the inheritance table throws *)


(** The entries as the resolver reads them where it does not throw: a
    [null] entry contributes what an entry without fields does. *)
Definition read_entry (e : RawEntry) : RoleInfoEntry :=
  match e with
  | raw_object entry => entry
  | _ => mkInfo None None None
  end.

Definition read_table (value : gmap string RawEntry) : gmap string RoleInfoEntry :=
  read_entry <$> value.

(** Until it throws, the resolver does on [value] what it does on
    [read_table value]. *)
Definition simulates (raw : option (Attempt (list PropEntry * gset string)))
    (typed : option (list PropEntry * gset string)) : Prop :=
  match raw with
  | None => typed = None
  | Some (returned a) => typed = Some a
  | Some threw => True
  end.

(** Resolving [roleName] comes to an entry that cannot be iterated: its
    own, or one that the edges of [follows] lead to. *)
Definition reaches_not_iterable (value : gmap string RawEntry) (roleName : string) : Prop :=
  ∃ n, rtc (follows (read_table value)) roleName n ∧ value !! n = Some raw_not_iterable.

(** Some entry of the object is stored under the name of a role of the map
    and is [null], or its resolution comes to an entry that cannot be
    iterated. *)
Definition merge_throws (value : gmap string RawEntry) (roles : JsObj Role) : Prop :=
  ∃ roleName info,
    value !! roleName = Some info ∧ is_Some (obj_get roles roleName)
    ∧ (info = raw_null ∨ reaches_not_iterable value roleName).

(** Every entry has the shape of [RoleInfoEntry]. *)
Definition well_shaped (value : gmap string RawEntry) : Prop :=
  ∀ n info, value !! n = Some info → ∃ entry, info = raw_object entry.

(** The run of [switch_fs] with [roleInfo.js] evaluating to [value]. *)
Definition switch_env (value : gmap string RawEntry) : Environment :=
  {| env_dataDir := "/srv/aria-mcp/data";
     env_aria_index := Some switch_doc;
     env_roleInfo_js := ScriptValue value;
     env_accname_index := None;
     env_html_aam_index := None;
     env_dpub_index := None;
     env_graphics_index := None;
     env_clock := "2024-01-01T00:00:00.000Z";
     env_thrown := "TypeError" |}.

(** [{ "checkbox": null }]: an entry that is [null], for a role of the
    primary document. *)
Definition null_entry_value : gmap string RawEntry :=
  {[ "checkbox" := raw_null ]}.

(** [{ "switch": { parentRoles: ["checkbox"] }, "checkbox": { parentRoles: 5 } }]:
    the parent of a role has a [parentRoles] that is no array. *)
Definition scalar_parents_value : gmap string RawEntry :=
  {[ "switch" := raw_object (mkInfo (Some ["checkbox"]) None None);
     "checkbox" := raw_not_iterable ]}.

(** [{ "button": null, "link": { parentRoles: 5 } }]: the same faults under
    names that are no role of [switch_doc] and no parent of one. *)
Definition unused_faults_value : gmap string RawEntry :=
  {[ "button" := raw_null; "link" := raw_not_iterable ]}.

(** * Properties of the resolver *)

(** ** Totality *)

Section Totality.
Context (roleInfo : gmap string RoleInfoEntry).

Local Abbreviation unvisited := (unvisited roleInfo).

Lemma unvisited_mono v v' : v ⊆ v' → unvisited v' ≤ unvisited v.
Proof. intros Hsub. unfold unvisited. apply subseteq_size. set_solver. Qed.

Lemma unvisited_add r v :
  r ∉ v → is_Some (roleInfo !! r) → unvisited ({[r]} ∪ v) < unvisited v.
Proof.
  intros Hnot Hin. unfold unvisited. apply subset_size.
  apply elem_of_dom in Hin. set_solver.
Qed.

Lemma for_parents_total rec (budget : nat) parents :
  (∀ p v, unvisited v < budget →
     ∃ ps v', rec p v = Some (ps, v') ∧ v ⊆ v') →
  ∀ props v, unvisited v < budget →
    ∃ ps v', for_parents rec parents props v = Some (ps, v') ∧ v ⊆ v'.
Proof.
  intros Hrec. induction parents as [|p rest IH]; intros props v Hv; simpl.
  - eauto.
  - destruct (Hrec p v Hv) as (ps & v1 & -> & Hsub).
    destruct (IH (push_missing props ps) v1) as (ps' & v2 & -> & Hsub').
    + pose proof (unvisited_mono _ _ Hsub). lia.
    + exists ps', v2. split; [done | set_solver].
Qed.

Lemma buildAllProps_fuel_enough fuel :
  ∀ roleName visited, unvisited visited < fuel →
    ∃ ps v', buildAllProps_fuel fuel roleName roleInfo visited = Some (ps, v')
             ∧ visited ⊆ v'.
Proof.
  induction fuel as [|fuel IH]; intros roleName visited Hlt; [lia|].
  simpl. case_decide as Hvis; [eauto|].
  destruct (roleInfo !! roleName) as [role|] eqn:Hrole.
  2:{ eexists _, _. split; [done | set_solver]. }
  destruct (allprops role) as [own|].
  { eexists _, _. split; [done | set_solver]. }
  destruct (parentRoles role) as [parents|].
  2:{ eexists _, _. split; [done | set_solver]. }
  destruct (for_parents_total
              (λ parentName v, buildAllProps_fuel fuel parentName roleInfo v)
              fuel parents IH (default [] (localprops role)) ({[roleName]} ∪ visited))
    as (ps & v' & -> & Hsub).
  - pose proof (unvisited_add roleName visited Hvis (mk_is_Some _ _ Hrole)). lia.
  - exists ps, v'. split; [done | set_solver].
Qed.

Lemma unvisited_le_size v : unvisited v ≤ size roleInfo.
Proof.
  unfold unvisited. rewrite <- size_dom.
  apply subseteq_size. set_solver.
Qed.
End Totality.

(** ** Name-based de-duplication, as the merge loop performs it *)

Lemma elem_of_nameset x ps : x ∈ nameset ps ↔ x ∈ names ps.
Proof. unfold nameset. by rewrite elem_of_list_to_set. Qed.

Lemma nameset_app ps qs : nameset (ps ++ qs) = nameset ps ∪ nameset qs.
Proof. unfold nameset, names. by rewrite fmap_app, list_to_set_app_L. Qed.

Lemma nameset_cons p ps : nameset (p :: ps) = {[prop_name p]} ∪ nameset ps.
Proof. done. Qed.

Lemma find_name_None (n : string) props :
  List.find (λ p, bool_decide (prop_name p = n)) props = None ↔ n ∉ nameset props.
Proof.
  induction props as [|p props IH]; simpl.
  - split; [set_solver | done].
  - rewrite nameset_cons. case_bool_decide as Hn.
    + split; [done | set_solver].
    + rewrite IH. set_solver.
Qed.

Lemma first_by_name_app seen ps qs :
  first_by_name seen (ps ++ qs)
  = first_by_name seen ps ++ first_by_name (seen ∪ nameset ps) qs.
Proof.
  revert seen. induction ps as [|p ps IH]; intros seen; simpl.
  - f_equal. set_solver.
  - rewrite nameset_cons. case_decide as Hin.
    + rewrite IH. do 2 f_equal. set_solver.
    + simpl. rewrite IH. do 3 f_equal. set_solver.
Qed.

Lemma push_missing_spec props parentProps :
  push_missing props parentProps
  = props ++ first_by_name (nameset props) parentProps.
Proof.
  revert props. induction parentProps as [|q rest IH]; intros props; simpl.
  - by rewrite app_nil_r.
  - destruct (List.find _ props) as [hit|] eqn:Hfind.
    + rewrite decide_True; [apply IH|].
      destruct (decide (prop_name q ∈ nameset props)) as [|Hnot]; [done|].
      apply find_name_None in Hnot. congruence.
    + apply find_name_None in Hfind. rewrite decide_False by done.
      rewrite IH, nameset_app, <- app_assoc. simpl. do 3 f_equal.
      rewrite nameset_cons. set_solver.
Qed.

Lemma nameset_first_by_name seen ps :
  nameset (first_by_name seen ps) = nameset ps ∖ seen.
Proof.
  revert seen. induction ps as [|p ps IH]; intros seen; simpl.
  - set_solver.
  - case_decide as Hin; rewrite ?nameset_cons, IH; clear IH; apply set_eq; intros x;
      destruct (decide (x = prop_name p)) as [->|]; set_solver.
Qed.

Lemma NoDup_first_by_name seen ps : NoDup (names (first_by_name seen ps)).
Proof.
  revert seen. induction ps as [|p ps IH]; intros seen; simpl.
  - constructor.
  - case_decide; [apply IH|]. simpl. constructor; [|apply IH].
    rewrite <- elem_of_nameset, nameset_first_by_name. set_solver.
Qed.

Lemma first_by_name_filter seen base ps :
  first_by_name (seen ∪ base) ps
  = filter (λ p, prop_name p ∉ seen) (first_by_name base ps).
Proof.
  revert base. induction ps as [|p ps IH]; intros base; simpl; [done|].
  destruct (decide (prop_name p ∈ base)) as [Hb|Hb].
  - rewrite decide_True by set_solver. apply IH.
  - destruct (decide (prop_name p ∈ seen)) as [Hs|Hs].
    + rewrite decide_True by set_solver.
      rewrite filter_cons_False by (simpl; tauto).
      rewrite <- IH. f_equal. set_solver.
    + rewrite decide_False by set_solver.
      rewrite filter_cons_True by done.
      rewrite <- IH. do 2 f_equal. set_solver.
Qed.

Lemma first_by_name_dedup seen ps :
  first_by_name seen ps = filter (λ p, prop_name p ∉ seen) (dedupByName ps).
Proof.
  unfold dedupByName. rewrite <- first_by_name_filter. f_equal. set_solver.
Qed.

Lemma first_by_name_congr seen ps qs :
  dedupByName ps = dedupByName qs → first_by_name seen ps = first_by_name seen qs.
Proof. intros Heq. by rewrite !(first_by_name_dedup seen), Heq. Qed.

Lemma first_by_name_id seen ps :
  NoDup (names ps) → nameset ps ## seen → first_by_name seen ps = ps.
Proof.
  revert seen. induction ps as [|p ps IH]; intros seen Hnd Hdisj; simpl; [done|].
  rewrite nameset_cons in Hdisj. inversion_clear Hnd as [|? ? Hp Hps].
  rewrite decide_False by set_solver. f_equal. apply IH; [done|].
  rewrite <- elem_of_nameset in Hp. set_solver.
Qed.

Lemma first_by_name_idem seen ps :
  first_by_name seen (first_by_name seen ps) = first_by_name seen ps.
Proof.
  apply first_by_name_id; [apply NoDup_first_by_name|].
  rewrite nameset_first_by_name. set_solver.
Qed.

Lemma dedupByName_id ps : NoDup (names ps) → dedupByName ps = ps.
Proof. intros Hnd. apply first_by_name_id; [done | set_solver]. Qed.

Lemma dedupByName_app ps qs :
  dedupByName (ps ++ qs) = dedupByName ps ++ first_by_name (nameset ps) qs.
Proof.
  unfold dedupByName. rewrite first_by_name_app. do 2 f_equal. set_solver.
Qed.

(** What the merge loop leaves, once de-duplicated, is the de-duplication of
    everything that was offered to it. *)
Lemma dedup_merge own rest :
  dedupByName (own ++ first_by_name (nameset own) rest) = dedupByName (own ++ rest).
Proof. by rewrite !dedupByName_app, first_by_name_idem. Qed.

Lemma NoDup_merge own rest :
  NoDup (names own) → NoDup (names (own ++ first_by_name (nameset own) rest)).
Proof.
  intros Hnd. unfold names. rewrite fmap_app. apply NoDup_app. split; [done|].
  split; [|apply NoDup_first_by_name].
  intros x Hx Hx'. apply elem_of_nameset in Hx'.
  rewrite nameset_first_by_name in Hx'. apply elem_of_nameset in Hx. set_solver.
Qed.

(** ** What one resolution visits and collects *)

Section Resolver.
Context (roleInfo : gmap string RoleInfoEntry).

Local Abbreviation own_list := (own_list roleInfo).
Local Abbreviation follows := (follows roleInfo).
Local Abbreviation visit_ok := (visit_ok roleInfo).

Lemma names_push_missing props parentProps x :
  x ∈ names (push_missing props parentProps)
  ↔ x ∈ names props ∨ x ∈ names parentProps.
Proof.
  rewrite push_missing_spec, <- !elem_of_nameset, nameset_app,
    nameset_first_by_name.
  destruct (decide (x ∈ nameset props)); set_solver.
Qed.

Lemma for_parents_ok rec parents :
  (∀ p v ps v', rec p v = Some (ps, v') → visit_ok p v ps v') →
  ∀ props v ps v', for_parents rec parents props v = Some (ps, v') →
    v ⊆ v'
    ∧ (∀ p, p ∈ parents → p ∈ v')
    ∧ (∀ n m, n ∈ v' → n ∉ v → follows n m → m ∈ v')
    ∧ (∀ n, n ∈ v' → n ∉ v → ∃ p, p ∈ parents ∧ rtc follows p n)
    ∧ (∀ x, x ∈ names ps ↔
            x ∈ names props ∨ (∃ n, n ∈ v' ∧ (n ∉ v) ∧ x ∈ names (own_list n))).
Proof.
  intros Hrec. induction parents as [|p rest IH]; intros props v ps v' Hrun;
    simpl in Hrun.
  - simplify_eq. repeat split; try set_solver.
  - destruct (rec p v) as [[pp v1]|] eqn:Hcall; [|done].
    apply Hrec in Hcall as [Hmono Hself Hclosed Hreach Hnames].
    apply IH in Hrun as (Hmono' & Hin' & Hclosed' & Hreach' & Hnames').
    split; [set_solver|]. split; [|split; [|split]].
    + intros q [->|Hq]%elem_of_cons; [set_solver | by apply Hin'].
    + intros n m Hn Hnv Hedge.
      destruct (decide (n ∈ v1)) as [Hn1|Hn1]; [|by eapply Hclosed'].
      apply Hmono'. by eapply Hclosed.
    + intros n Hn Hnv.
      destruct (decide (n ∈ v1)) as [Hn1|Hn1].
      * exists p. split; [left | by apply Hreach].
      * destruct (Hreach' n Hn Hn1) as (q & Hq & Hpath).
        exists q. split; [by right | done].
    + intros x. rewrite Hnames', names_push_missing, Hnames. split.
      * intros [[Hx|(n & Hn & Hnv & Hx)]|(n & Hn & Hnv & Hx)]; [by left|..];
          right; exists n; set_solver.
      * intros [Hx|(n & Hn & Hnv & Hx)]; [by do 2 left|].
        destruct (decide (n ∈ v1)); [left; right | right]; by exists n.
Qed.

Lemma follows_None r m : roleInfo !! r = None → ¬ follows r m.
Proof. intros Hr (role & ps & ? & _). congruence. Qed.

Lemma follows_allprops r role own m :
  roleInfo !! r = Some role → allprops role = Some own → ¬ follows r m.
Proof. intros Hr Ha (role' & ps & ? & ? & _). congruence. Qed.

Lemma follows_no_parents r role m :
  roleInfo !! r = Some role → parentRoles role = None → ¬ follows r m.
Proof. intros Hr Ha (role' & ps & ? & ? & ? & _). congruence. Qed.

(** A call that stops at [roleName] itself. *)
Lemma visit_ok_leaf r v :
  r ∉ v → (∀ m, ¬ follows r m) → visit_ok r v (own_list r) ({[r]} ∪ v).
Proof.
  intros Hr Hleaf. split.
  - set_solver.
  - set_solver.
  - intros n m Hn Hnv Hedge. assert (n = r) as -> by set_solver.
    by apply Hleaf in Hedge.
  - intros n Hn Hnv. assert (n = r) as -> by set_solver. done.
  - intros x. split.
    + intros Hx. exists r. set_solver.
    + intros (n & Hn & Hnv & Hx). assert (n = r) as -> by set_solver. done.
Qed.

Lemma buildAllProps_fuel_ok fuel :
  ∀ r v ps v', buildAllProps_fuel fuel r roleInfo v = Some (ps, v') →
    visit_ok r v ps v'.
Proof.
  induction fuel as [|fuel IH]; intros r v ps v' Hrun; [done|].
  simpl in Hrun. case_decide as Hvis.
  { simplify_eq. split; try done.
    intros x. split; [by intros ?%elem_of_nil|]. by intros (n & ? & ? & _). }
  destruct (roleInfo !! r) as [role|] eqn:Hrole.
  2:{ simplify_eq. replace [] with (own_list r) by (unfold own_list; by rewrite Hrole).
      apply visit_ok_leaf; [done|]. intros m. by apply follows_None. }
  destruct (allprops role) as [own|] eqn:Hall.
  { simplify_eq. replace ps with (own_list r) by (unfold own_list; by rewrite Hrole, Hall).
    apply visit_ok_leaf; [done|]. intros m. by eapply follows_allprops. }
  destruct (parentRoles role) as [parents|] eqn:Hparents.
  2:{ simplify_eq.
      replace (default [] (localprops role)) with (own_list r)
        by (unfold own_list; by rewrite Hrole, Hall).
      apply visit_ok_leaf; [done|]. intros m. by eapply follows_no_parents. }
  apply (for_parents_ok _ parents IH) in Hrun
    as (Hmono & Hin & Hclosed & Hreach & Hnames).
  assert (Hown : own_list r = default [] (localprops role))
    by (unfold own_list; by rewrite Hrole, Hall).
  split.
  - set_solver.
  - set_solver.
  - intros n m Hn Hnv Hedge.
    destruct (decide (n = r)) as [->|Hne]; [|eapply Hclosed; set_solver].
    destruct Hedge as (role' & parents' & ? & _ & ? & Hm). simplify_eq.
    by apply Hin.
  - intros n Hn Hnv.
    destruct (decide (n = r)) as [->|Hne]; [done|].
    destruct (Hreach n) as (p & Hp & Hpath); [set_solver..|].
    eapply rtc_l; [|done]. by exists role, parents.
  - intros x. rewrite Hnames, <- Hown. split.
    + intros [Hx|(n & Hn & Hnv & Hx)]; [exists r | exists n]; set_solver.
    + intros (n & Hn & Hnv & Hx).
      destruct (decide (n = r)) as [->|Hne]; [by left|].
      right. exists n. set_solver.
Qed.

(** Everything the followed edges can reach from a freshly visited role has
    been visited when the call returns. *)
Lemma visit_ok_reachable r v ps v' n m :
  visit_ok r v ps v' → n ∈ v' → n ∉ v → rtc follows n m →
  (∀ k, rtc follows n k → k ∉ v) → m ∈ v'.
Proof.
  intros Hok Hn Hnv Hpath. induction Hpath as [n|n k m Hedge Hpath IH]; [done|].
  intros Hfree. apply IH.
  - by eapply (visit_closed _ _ _ _ _ Hok).
  - apply Hfree. by apply rtc_once.
  - intros j Hj. apply Hfree. by eapply rtc_l.
Qed.
End Resolver.

(** ** The result against the pre-order list *)

Section FirstWins.
Context (roleInfo : gmap string RoleInfoEntry).

Local Abbreviation start_list := (start_list roleInfo).

Lemma merged_from_dedup own props raw :
  merged_from own props raw → dedupByName props = dedupByName raw.
Proof. intros (rest & -> & ->). apply dedup_merge. Qed.

Lemma merged_from_own own : merged_from own own own.
Proof. exists []. simpl. by rewrite !app_nil_r. Qed.

Lemma nameset_merge own rest :
  nameset (own ++ first_by_name (nameset own) rest) = nameset own ∪ nameset rest.
Proof.
  rewrite nameset_app, nameset_first_by_name. apply set_eq. intros x.
  destruct (decide (x ∈ nameset own)); set_solver.
Qed.

Lemma for_parents_merged rec rec' parents :
  (∀ p v pp v1, rec p v = Some (pp, v1) →
     ∃ raw, rec' p v = Some (raw, v1) ∧ dedupByName pp = dedupByName raw) →
  ∀ own rest0 v ps v',
    for_parents rec parents (own ++ first_by_name (nameset own) rest0) v = Some (ps, v') →
    ∃ rest, collect_parents rec' parents (own ++ rest0) v = Some (own ++ rest, v')
            ∧ ps = own ++ first_by_name (nameset own) rest.
Proof.
  intros Hrec. induction parents as [|p parents IH]; intros own rest0 v ps v' Hrun;
    simpl in *.
  - simplify_eq. by exists rest0.
  - destruct (rec p v) as [[pp v1]|] eqn:Hcall; [|done].
    destruct (Hrec _ _ _ _ Hcall) as (raw & -> & Hdedup).
    rewrite push_missing_spec, nameset_merge, <- app_assoc in Hrun.
    rewrite (first_by_name_congr _ pp raw Hdedup), <- first_by_name_app in Hrun.
    rewrite <- app_assoc. by apply IH.
Qed.

Lemma buildAllProps_fuel_merged fuel :
  ∀ r v ps v', buildAllProps_fuel fuel r roleInfo v = Some (ps, v') →
    ∃ raw, contributions_fuel fuel r roleInfo v = Some (raw, v')
           ∧ merged_from (start_list r v) ps raw.
Proof.
  induction fuel as [|fuel IH]; intros r v ps v' Hrun; [done|].
  unfold start_list, own_list. simpl in *. case_decide as Hvis.
  { simplify_eq. eexists. split; [done | apply merged_from_own]. }
  destruct (roleInfo !! r) as [role|]; [|simplify_eq; eauto using merged_from_own].
  destruct (allprops role) as [own|]; [simplify_eq; eauto using merged_from_own|].
  destruct (parentRoles role) as [parents|]; [|simplify_eq; eauto using merged_from_own].
  set (own := default [] (localprops role)) in *.
  replace own with (own ++ first_by_name (nameset own) []) in Hrun
    by (simpl; by rewrite app_nil_r).
  eapply for_parents_merged in Hrun as (rest & Hraw & ->).
  - rewrite app_nil_r in Hraw. eexists. split; [done | by exists rest].
  - intros p w pp w1 Hcall. apply IH in Hcall as (raw & ? & Hm).
    exists raw. split; [done | by eapply merged_from_dedup].
Qed.
End FirstWins.

(** ** The resolver's result does not depend on the budget *)

Lemma for_parents_ext rec rec' parents :
  (∀ p v r, rec p v = Some r → rec' p v = Some r) →
  ∀ props v r, for_parents rec parents props v = Some r →
    for_parents rec' parents props v = Some r.
Proof.
  intros Hrec. induction parents as [|p parents IH]; intros props v r Hrun;
    simpl in *; [done|].
  destruct (rec p v) as [[pp v1]|] eqn:Hcall; [|done].
  rewrite (Hrec _ _ _ Hcall). by apply IH.
Qed.

Lemma buildAllProps_fuel_more fuel fuel' roleInfo :
  fuel ≤ fuel' →
  ∀ r v res, buildAllProps_fuel fuel r roleInfo v = Some res →
    buildAllProps_fuel fuel' r roleInfo v = Some res.
Proof.
  revert fuel'. induction fuel as [|fuel IH]; intros fuel' Hle r v res Hrun; [done|].
  destruct fuel' as [|fuel']; [lia|]. simpl in *.
  case_decide; [done|].
  destruct (roleInfo !! r) as [role|]; [|done].
  destruct (allprops role); [done|].
  destruct (parentRoles role) as [parents|]; [|done].
  eapply for_parents_ext; [|done].
  intros p w res' Hcall. eapply IH; [lia | done].
Qed.

Lemma buildAllProps_total roleInfo roleName visited :
  ∃ props visited', buildAllProps roleName roleInfo visited = Some (props, visited').
Proof.
  destruct (buildAllProps_fuel_enough roleInfo (S (size roleInfo)) roleName visited)
    as (ps & v' & Hrun & _).
  - pose proof (unvisited_le_size roleInfo visited). lia.
  - by exists ps, v'.
Qed.

Lemma buildAllProps_top_eq roleInfo roleName props visited' :
  buildAllProps roleName roleInfo ∅ = Some (props, visited') →
  buildAllProps_top roleName roleInfo = props.
Proof. unfold buildAllProps_top. by intros ->. Qed.

Lemma buildAllProps_absent roleInfo roleName :
  roleInfo !! roleName = None → buildAllProps_top roleName roleInfo = [].
Proof.
  intros Habs. unfold buildAllProps_top, buildAllProps. simpl.
  rewrite decide_False by set_solver. by rewrite Habs.
Qed.

Lemma NoDup_names_app_l ps qs : NoDup (names (ps ++ qs)) → NoDup (names ps).
Proof. unfold names. rewrite fmap_app. by intros [? _]%NoDup_app. Qed.

Lemma start_list_fresh roleInfo roleName :
  start_list roleInfo roleName ∅ = own_list roleInfo roleName.
Proof. unfold start_list. by rewrite decide_False by set_solver. Qed.

Lemma acyclic_by_rank roleInfo (rank : string → nat) :
  (∀ r p, declared_parent roleInfo r p → rank p < rank r) → acyclic roleInfo.
Proof.
  intros Hrank r Hcycle.
  assert (∀ a b, tc (declared_parent roleInfo) a b → rank b < rank a) as Hlt.
  { intros a b Htc. induction Htc as [a b Hstep|a b c Hstep _ IH].
    - by apply Hrank.
    - apply Hrank in Hstep. lia. }
  apply Hlt in Hcycle. lia.
Qed.

(** ** The worked tables *)

Example switch_resolves :
  buildAllProps_top "switch" switch_table
  = [required_prop "aria-checked"; plain "aria-label"].
Proof. vm_compute. reflexivity. Qed.

Example cyclic_resolves :
  buildAllProps_top "a" cyclic_table = [plain "aria-a"; plain "aria-b"]
  ∧ buildAllProps_top "b" cyclic_table = [plain "aria-b"; plain "aria-a"].
Proof. split; vm_compute; reflexivity. Qed.

(** ** Claims about the resolver *)

(** C4.  On every table, whatever its parent references, also ones that
    loop back, [buildAllProps] returns a list for every role name and every
    visited set; a larger recursion budget returns the same, so the budget
    never cuts a resolution short; and a role name that is already in the
    visited set resolves to the empty list, the set being left as it was. *)
Theorem buildAllProps_terminates roleInfo roleName visited :
  (∃ props visited',
     buildAllProps roleName roleInfo visited = Some (props, visited')
     ∧ ∀ extra, buildAllProps_fuel (S (size roleInfo) + extra) roleName roleInfo visited
                = Some (props, visited'))
  ∧ buildAllProps roleName roleInfo ({[roleName]} ∪ visited)
    = Some ([], {[roleName]} ∪ visited).
Proof.
  split.
  - destruct (buildAllProps_total roleInfo roleName visited) as (ps & v' & Hrun).
    exists ps, v'. split; [done|]. intros extra.
    eapply buildAllProps_fuel_more; [|exact Hrun]. lia.
  - unfold buildAllProps. simpl. by rewrite decide_True by set_solver.
Qed.

(** C1, as the code has it.  For a role [R] of the table that carries no
    precomputed [allprops], and every parent [P] it declares, the list
    resolved for [R] contains, by name, every property resolved for [P];
    this holds with or without cycles.  The list resolved for [R] is free of
    repeated names exactly when the [localprops] of [R] are. *)
Theorem buildAllProps_includes_parents roleInfo R role parents P :
  roleInfo !! R = Some role → allprops role = None →
  parentRoles role = Some parents → P ∈ parents →
  ∃ propsR visitedR propsP visitedP,
    buildAllProps R roleInfo ∅ = Some (propsR, visitedR)
    ∧ buildAllProps P roleInfo ∅ = Some (propsP, visitedP)
    ∧ names propsP ⊆ names propsR
    ∧ (NoDup (names propsR) ↔ NoDup (names (default [] (localprops role)))).
Proof.
  intros HR Hall Hparents HP.
  destruct (buildAllProps_total roleInfo R ∅) as (psR & vR & HrunR).
  destruct (buildAllProps_total roleInfo P ∅) as (psP & vP & HrunP).
  exists psR, vR, psP, vP. split; [done|]. split; [done|].
  pose proof (buildAllProps_fuel_ok _ _ _ _ _ _ HrunR) as HokR.
  pose proof (buildAllProps_fuel_ok _ _ _ _ _ _ HrunP) as HokP.
  split.
  - intros x Hx. apply (visit_names _ _ _ _ _ HokP) in Hx as (n & Hn & _ & Hx).
    apply (visit_names _ _ _ _ _ HokR). exists n. split; [|split; [set_solver | done]].
    eapply (visit_ok_reachable _ _ _ _ _ R n HokR).
    + by eapply visit_self.
    + set_solver.
    + eapply rtc_l; [by exists role, parents|].
      eapply (visit_reach _ _ _ _ _ HokP); [done | set_solver].
    + set_solver.
  - apply buildAllProps_fuel_merged in HrunR as (raw & _ & rest & _ & ->).
    rewrite start_list_fresh. unfold own_list. rewrite HR, Hall. split.
    + apply NoDup_names_app_l.
    + apply NoDup_merge.
Qed.

Lemma buildAllProps_includes_parents_witness :
  ∃ propsR visitedR propsP visitedP,
    buildAllProps "switch" switch_table ∅ = Some (propsR, visitedR)
    ∧ buildAllProps "checkbox" switch_table ∅ = Some (propsP, visitedP)
    ∧ names propsP ⊆ names propsR
    ∧ (NoDup (names propsR) ↔ NoDup (names [required_prop "aria-checked"])).
Proof.
  apply (buildAllProps_includes_parents switch_table "switch"
           (mkInfo (Some ["checkbox"]) (Some [required_prop "aria-checked"]) None)
           ["checkbox"] "checkbox").
  - vm_compute. reflexivity.
  - reflexivity.
  - reflexivity.
  - apply (bool_decide_unpack _). vm_compute. exact I.
Defined.

(** C1 as stated fails on two acyclic tables.  In [precomputed_table] the
    role [child] declares the parent [base] and carries its own [allprops]:
    its result is that list, without the property of [base].  In
    [repeated_table] the [localprops] of [child] name [aria-x] twice, and so
    does its result. *)
Lemma buildAllProps_includes_parents_counterexample :
  (acyclic precomputed_table
   ∧ declared_parent precomputed_table "child" "base"
   ∧ buildAllProps_top "child" precomputed_table = [plain "aria-own"]
   ∧ buildAllProps_top "base" precomputed_table = [plain "aria-base"]
   ∧ ¬ names (buildAllProps_top "base" precomputed_table)
       ⊆ names (buildAllProps_top "child" precomputed_table))
  ∧ (acyclic repeated_table
     ∧ declared_parent repeated_table "child" "base"
     ∧ ¬ NoDup (names (buildAllProps_top "child" repeated_table))).
Proof.
  assert (∀ t : gmap string RoleInfoEntry,
            (∀ r p, declared_parent t r p → r = "child" ∧ p = "base") → acyclic t)
    as Hacyclic.
  { intros t Hedge.
    apply (acyclic_by_rank t (λ r, if decide (r = "base") then 0 else 1)).
    intros r p [-> ->]%Hedge. simpl. lia. }
  split; [split; [|split; [|split; [|split]]] | split; [|split]].
  - apply Hacyclic. intros r p (role & parents & Hr & Hp & Hin).
    unfold precomputed_table in Hr.
    apply lookup_insert_Some in Hr as [[<- <-]|[_ Hr]].
    + simpl in Hp. simplify_eq. by apply list_elem_of_singleton in Hin as ->.
    + apply lookup_singleton_Some in Hr as [<- <-]. done.
  - eexists _, _. split; [by vm_compute|]. split; [done | apply list_elem_of_here].
  - by vm_compute.
  - by vm_compute.
  - intros Hsub.
    assert (buildAllProps_top "base" precomputed_table = [plain "aria-base"]) as Hb
      by by vm_compute.
    assert (buildAllProps_top "child" precomputed_table = [plain "aria-own"]) as Hc
      by by vm_compute.
    rewrite Hb, Hc in Hsub.
    specialize (Hsub "aria-base" (list_elem_of_here _ _)).
    by apply list_elem_of_singleton in Hsub.
  - apply Hacyclic. intros r p (role & parents & Hr & Hp & Hin).
    unfold repeated_table in Hr.
    apply lookup_insert_Some in Hr as [[<- <-]|[_ Hr]].
    + simpl in Hp. simplify_eq. by apply list_elem_of_singleton in Hin as ->.
    + apply lookup_singleton_Some in Hr as [<- <-]. done.
  - eexists _, _. split; [by vm_compute|]. split; [done | apply list_elem_of_here].
  - assert (buildAllProps_top "child" repeated_table
            = [plain "aria-x"; required_prop "aria-x"; plain "aria-base"]) as ->
      by by vm_compute.
    simpl. intros Hnd. apply NoDup_cons in Hnd as [Hnot _].
    apply Hnot, list_elem_of_here.
Qed.

(** C3, as the code has it.  When the list a role starts from (its
    [allprops], else its [localprops]) names no property twice, the result
    of [buildAllProps] names no property twice and is the pre-order list of
    contributions (own list, then the parents in declared order) with the
    first entry of every name kept as it is and every later entry of that
    name dropped. *)
Theorem buildAllProps_first_occurrence_wins roleInfo roleName visited :
  NoDup (names (own_list roleInfo roleName)) →
  ∃ props raw visited',
    buildAllProps roleName roleInfo visited = Some (props, visited')
    ∧ contributions roleName roleInfo visited = Some (raw, visited')
    ∧ props = dedupByName raw
    ∧ NoDup (names props).
Proof.
  intros Hown.
  destruct (buildAllProps_total roleInfo roleName visited) as (ps & v' & Hrun).
  destruct (buildAllProps_fuel_merged _ _ _ _ _ _ Hrun) as (raw & Hraw & rest & -> & ->).
  exists (start_list roleInfo roleName visited
          ++ first_by_name (nameset (start_list roleInfo roleName visited)) rest),
    (start_list roleInfo roleName visited ++ rest), v'.
  assert (NoDup (names (start_list roleInfo roleName visited))) as Hstart.
  { unfold start_list. case_decide; [constructor | done]. }
  split; [done|]. split; [done|]. split.
  - by rewrite dedupByName_app, dedupByName_id.
  - by apply NoDup_merge.
Qed.

Lemma buildAllProps_first_occurrence_wins_witness :
  ∃ props raw visited',
    buildAllProps "switch" switch_table ∅ = Some (props, visited')
    ∧ contributions "switch" switch_table ∅ = Some (raw, visited')
    ∧ props = dedupByName raw
    ∧ NoDup (names props).
Proof.
  apply (buildAllProps_first_occurrence_wins switch_table "switch" ∅).
  apply (bool_decide_unpack _). vm_compute. exact I.
Defined.

(** C3 as stated fails on [repeated_table]: both entries named [aria-x] of
    the role's own list are in the result. *)
Lemma buildAllProps_first_occurrence_wins_counterexample :
  buildAllProps_top "child" repeated_table
  = [plain "aria-x"; required_prop "aria-x"; plain "aria-base"]
  ∧ ¬ NoDup (names [plain "aria-x"; required_prop "aria-x"; plain "aria-base"]).
Proof.
  split; [by vm_compute|].
  simpl. intros Hnd. apply NoDup_cons in Hnd as [Hnot _].
  apply Hnot, list_elem_of_here.
Qed.

(** * Properties of the extractor *)

(** ** Association-list objects *)

Section JsObj.
Context {A : Type}.
Implicit Types (o : JsObj A) (k : string) (v : A).

Lemma eqb_decide (a b : string) : String.eqb a b = bool_decide (a = b).
Proof.
  destruct (String.eqb_spec a b) as [->|Hne].
  - by rewrite bool_decide_eq_true_2.
  - by rewrite bool_decide_eq_false_2.
Qed.

Lemma obj_get_set o k v k' :
  obj_get (obj_set o k v) k' = if decide (k = k') then Some v else obj_get o k'.
Proof.
  induction o as [|[k0 v0] o IH]; simpl.
  - rewrite eqb_decide. case_bool_decide; by case_decide.
  - rewrite (eqb_decide k0 k). case_bool_decide as Hk; simpl.
    + subst k0. rewrite !eqb_decide. case_bool_decide; by case_decide.
    + rewrite IH, eqb_decide. case_bool_decide; [|done].
      subst k0. by rewrite decide_False.
Qed.

Lemma obj_get_update o k (f : A → A) k' :
  obj_get (obj_update o k f) k'
  = if decide (k = k') then f <$> obj_get o k' else obj_get o k'.
Proof.
  induction o as [|[k0 v0] o IH]; simpl.
  - by case_decide.
  - rewrite (eqb_decide k0 k). case_bool_decide as Hk; simpl.
    + subst k0. rewrite !eqb_decide. case_bool_decide; by case_decide.
    + rewrite IH, eqb_decide. case_bool_decide; [|done].
      subst k0. by rewrite decide_False.
Qed.

Lemma obj_keys_update o k (f : A → A) : obj_keys (obj_update o k f) = obj_keys o.
Proof.
  unfold obj_keys. induction o as [|[k0 v0] o IH]; simpl; [done|].
  destruct (String.eqb k0 k); simpl; [done | by f_equal].
Qed.

Lemma obj_get_is_Some o k : is_Some (obj_get o k) ↔ k ∈ obj_keys o.
Proof.
  unfold obj_keys. induction o as [|[k0 v0] o IH]; simpl.
  - split; [by intros [? ?] | by intros ?%elem_of_nil].
  - rewrite eqb_decide, elem_of_cons. case_bool_decide as Hk.
    + subst. split; [by left | by eexists].
    + rewrite IH. split; [by right | by intros [->|?]].
Qed.

Lemma obj_get_None o k : obj_get o k = None ↔ k ∉ obj_keys o.
Proof. rewrite <- obj_get_is_Some, eq_None_not_Some. done. Qed.

(** The keys of an object built by assignments are pairwise distinct. *)
Lemma obj_keys_set_NoDup o k v : NoDup (obj_keys o) → NoDup (obj_keys (obj_set o k v)).
Proof.
  unfold obj_keys. induction o as [|[k0 v0] o IH]; simpl; intros Hnd.
  - apply NoDup_singleton.
  - apply NoDup_cons in Hnd as [Hk0 Hnd].
    rewrite eqb_decide. case_bool_decide as Hk; simpl.
    + subst. by apply NoDup_cons.
    + apply NoDup_cons. split; [|by apply IH].
      intros Hin. apply Hk0. clear IH Hnd Hk0.
      induction o as [|[k1 v1] o IH]; simpl in *.
      * apply list_elem_of_singleton in Hin. by subst.
      * rewrite eqb_decide in Hin. case_bool_decide; simpl in *.
        -- subst. apply elem_of_cons in Hin as [->|Hin]; [done | by right].
        -- apply elem_of_cons in Hin as [->|Hin]; [by left | right; by apply IH].
Qed.
End JsObj.

(** Building an object by one assignment per block: the record kept under a
    key is the one made from the last block that carries the key. *)
Lemma obj_get_foldl_blocks {A} (make : string → DefBlock → A) blocks name :
  obj_get (foldl (λ o b, match usable_id b with
                         | None => o
                         | Some id => obj_set o id (make id b)
                         end) [] blocks) name
  = make name <$> defining_block blocks name.
Proof.
  unfold defining_block. induction blocks as [|b blocks IH] using rev_ind; [done|].
  rewrite foldl_app, List.filter_app, last_app. simpl.
  destruct (usable_id b) as [id|] eqn:Hid.
  - rewrite obj_get_set. case_decide as Hname.
    + subst id. by rewrite bool_decide_eq_true_2.
    + rewrite bool_decide_eq_false_2 by congruence. done.
  - by rewrite bool_decide_eq_false_2.
Qed.

Lemma parseRoles_lookup doc name :
  obj_get (parseRoles doc) name
  = parse_role_block name <$> defining_block (role_blocks doc) name.
Proof. apply (obj_get_foldl_blocks parse_role_block). Qed.

Lemma parseStatesAndProperties_lookup doc name :
  obj_get (parseStatesAndProperties doc) name
  = parse_attr_block name <$> defining_block (attr_blocks doc) name.
Proof. apply (obj_get_foldl_blocks parse_attr_block). Qed.

Lemma parseRoles_NoDup doc : NoDup (obj_keys (parseRoles doc)).
Proof.
  unfold parseRoles. generalize (role_blocks doc). intros blocks.
  induction blocks as [|b blocks IH] using rev_ind; [constructor|].
  rewrite foldl_app. simpl. unfold parseRoles_step at 1.
  destruct (usable_id b); [by apply obj_keys_set_NoDup | done].
Qed.

(** ** Fields that the rows of a characteristics table drive *)

(** A field that every selected row overwrites holds what the last selected
    row gave it. *)
Lemma foldl_last_row {S B} (step : S → TableRow → S) (get : S → B)
    (sel : TableRow → bool) (val : TableRow → B) :
  (∀ s row, get (step s row) = if sel row then val row else get s) →
  ∀ rows s, get (foldl step s rows)
            = match last (List.filter sel rows) with
              | Some row => val row
              | None => get s
              end.
Proof.
  intros Hstep rows. induction rows as [|row rows IH] using rev_ind; intros s; [done|].
  rewrite foldl_app, List.filter_app, last_app. simpl. rewrite Hstep.
  destruct (sel row); simpl; [done | apply IH].
Qed.

(** A flag that selected rows can only raise is raised when one of them
    raised it. *)
Lemma foldl_any_row {S} (step : S → TableRow → S) (get : S → bool)
    (raises : TableRow → bool) :
  (∀ s row, get (step s row) = get s || raises row) →
  ∀ rows s, get (foldl step s rows) = get s || existsb raises rows.
Proof.
  intros Hstep rows. induction rows as [|row rows IH]; intros s; simpl.
  - by rewrite orb_false_r.
  - by rewrite IH, Hstep, orb_assoc.
Qed.

Ltac role_row_cases role row :=
  unfold role_row, row_header, row_value;
  destruct (role_row_kind (toLowerCase (cleanText (th_text row))));
  destruct role; try destruct (td_implicit row); simpl; try done.

Lemma role_row_isAbstract role row :
  isAbstract (role_row role row)
  = if bool_decide (role_row_kind (row_header row) = RowIsAbstract)
    then is_true_text (row_value row) else isAbstract role.
Proof. role_row_cases role row. Qed.

Lemma role_row_accessibleNameRequired role row :
  accessibleNameRequired (role_row role row)
  = if bool_decide (role_row_kind (row_header row) = RowNameRequired)
    then is_true_text (row_value row) else accessibleNameRequired role.
Proof. role_row_cases role row. Qed.

Lemma role_row_childrenPresentational role row :
  childrenPresentational (role_row role row)
  = if bool_decide (role_row_kind (row_header row) = RowChildrenPresentational)
    then is_true_text (row_value row) else childrenPresentational role.
Proof. role_row_cases role row. Qed.

(** The rows never touch what [main] and [categorizeRoles] add later. *)
Lemma role_row_later_fields role row :
  role_parentRoles (role_row role row) = role_parentRoles role
  ∧ localProps (role_row role row) = localProps role
  ∧ allProps (role_row role row) = allProps role
  ∧ role_category (role_row role row) = role_category role.
Proof. role_row_cases role row. Qed.

Lemma foldl_role_row_later_fields rows role :
  role_parentRoles (foldl role_row role rows) = role_parentRoles role
  ∧ localProps (foldl role_row role rows) = localProps role
  ∧ allProps (foldl role_row role rows) = allProps role
  ∧ role_category (foldl role_row role rows) = role_category role.
Proof.
  revert role. induction rows as [|row rows IH]; intros role; simpl; [done|].
  destruct (IH (role_row role row)) as (-> & -> & -> & ->).
  apply role_row_later_fields.
Qed.

Lemma parse_role_block_later_fields id b :
  role_parentRoles (parse_role_block id b) = None
  ∧ localProps (parse_role_block id b) = None
  ∧ allProps (parse_role_block id b) = None
  ∧ role_category (parse_role_block id b) = None.
Proof. apply foldl_role_row_later_fields. Qed.

(** C9, as the code has it.  Each of the three boolean fields of a role is
    true exactly when the last row that drives it has a cell whose cleaned
    text, lower-cased, is the string [true]; with no such row the field is
    false.  [parse_role_block] is a total function: no content makes it
    fail. *)
Theorem boolean_fields_from_true id b :
  let flag kind :=
    match last_cell kind b with
    | Some cell => String.eqb (toLowerCase cell) "true"
    | None => false
    end in
  isAbstract (parse_role_block id b) = flag RowIsAbstract
  ∧ accessibleNameRequired (parse_role_block id b) = flag RowNameRequired
  ∧ childrenPresentational (parse_role_block id b) = flag RowChildrenPresentational.
Proof.
  unfold parse_role_block, last_cell. repeat split.
  - rewrite (foldl_last_row role_row isAbstract _ _ role_row_isAbstract).
    by destruct (last _).
  - rewrite (foldl_last_row role_row accessibleNameRequired _ _
               role_row_accessibleNameRequired).
    by destruct (last _).
  - rewrite (foldl_last_row role_row childrenPresentational _ _
               role_row_childrenPresentational).
    by destruct (last _).
Qed.

(** C9 as stated fails in two ways.  A cell that contains the token [true]
    next to other text leaves the field false: in [not_true_block] the row
    drives [isAbstract] and its cell reads [not true].  And a row whose cell
    is [True] does not decide the field when a later row drives it too: in
    [overridden_block] the later cell reads [False] and wins. *)
Lemma boolean_fields_from_true_counterexample :
  (role_row_kind (row_header (cell_row "Is abstract" "not true")) = RowIsAbstract
   ∧ "true" ∈ split_list (toLowerCase (row_value (cell_row "Is abstract" "not true")))
   ∧ includes (toLowerCase (row_value (cell_row "Is abstract" "not true"))) "true" = true
   ∧ isAbstract (parse_role_block "command" not_true_block) = false)
  ∧ (role_row_kind (row_header (cell_row "Is abstract:" "True")) = RowIsAbstract
     ∧ is_true_text (row_value (cell_row "Is abstract:" "True")) = true
     ∧ cell_row "Is abstract:" "True" ∈ block_rows overridden_block
     ∧ isAbstract (parse_role_block "widget" overridden_block) = false).
Proof.
  split.
  - split; [by vm_compute|]. split; [|split; by vm_compute].
    assert (split_list (toLowerCase (row_value (cell_row "Is abstract" "not true")))
            = ["not"; "true"]) as -> by by vm_compute.
    apply list_elem_of_further, list_elem_of_here.
  - split; [by vm_compute|]. split; [by vm_compute|].
    split; [apply list_elem_of_here | by vm_compute].
Qed.

(** ** Attributes *)

Lemma attr_row_isGlobal attr row :
  isGlobal (attr_row attr row)
  = isGlobal attr
    || (bool_decide (attr_row_kind (row_header row) = RowUsedIn)
        && includes (toLowerCase (row_value row)) "all elements").
Proof.
  unfold attr_row, row_header, row_value. destruct attr as [? ? ? ? ? ? ? ? ? g].
  destruct (attr_row_kind (toLowerCase (cleanText (th_text row))));
    try destruct (td_tokens row); simpl; try destruct (includes _ _);
    by destruct g.
Qed.

Lemma parse_attr_block_isGlobal id b :
  isGlobal (parse_attr_block id b) = signals_all_elements b.
Proof.
  unfold parse_attr_block, signals_all_elements.
  by rewrite (foldl_any_row attr_row isGlobal _ attr_row_isGlobal).
Qed.

Lemma elem_of_global_index sp name :
  name ∈ global_index sp ↔ ∃ attr, obj_get sp name = Some attr ∧ isGlobal attr = true.
Proof.
  unfold global_index. rewrite merge_sort_Permutation, list_elem_of_In, filter_In.
  rewrite <- list_elem_of_In, <- obj_get_is_Some. split.
  - intros [[attr Hattr] Hg]. rewrite Hattr in Hg. by exists attr.
  - intros (attr & Hattr & Hg). rewrite Hattr. by split; [eexists|].
Qed.

Lemma global_index_sorted sp : Sorted String.le (global_index sp).
Proof. apply Sorted_merge_sort. apply _. Qed.

(** C2, as the code has it.  A name is in [globalStatesAndProperties]
    exactly when the block that defines the attribute has an applicability
    row (header containing [used in role] or [applicable to], and none of
    the phrases tested before them) whose cell contains the words
    [all elements], in any letter case. *)
Theorem global_index_iff fs doc name :
  aria_index fs = Some doc →
  ∃ path data,
    written (main fs) = Some (path, data)
    ∧ (name ∈ globalStatesAndProperties data
       ↔ ∃ b, defining_block (attr_blocks doc) name = Some b
              ∧ signals_all_elements b = true).
Proof.
  intros Hdoc. unfold main. rewrite Hdoc. eexists _, _. split; [done|]. simpl.
  rewrite elem_of_global_index, parseStatesAndProperties_lookup. split.
  - intros (attr & Hattr & Hg).
    destruct (defining_block _ _) as [b|]; [|done]. simpl in Hattr. simplify_eq.
    exists b. by rewrite <- (parse_attr_block_isGlobal name).
  - intros (b & -> & Hb). eexists. split; [done|].
    by rewrite parse_attr_block_isGlobal.
Qed.

Lemma global_index_iff_witness :
  ∃ path data,
    written (main sample_fs) = Some (path, data)
    ∧ ("aria-all" ∈ globalStatesAndProperties data
       ↔ ∃ b, defining_block (attr_blocks sample_doc) "aria-all" = Some b
              ∧ signals_all_elements b = true).
Proof. apply (global_index_iff sample_fs sample_doc "aria-all"). reflexivity. Defined.

(** C2 as stated fails on a cell that reads [Any element]: the attribute
    is left out of the index.  Of the three attributes of [sample_doc], only
    the one whose cell reads [All elements of the base markup] is in. *)
Lemma global_index_iff_counterexample :
  ∃ path data,
    written (main sample_fs) = Some (path, data)
    ∧ (row_value <$> block_rows any_element_block) = ["Any element"]
    ∧ is_Some (obj_get (properties data) "aria-any")
    ∧ ("aria-any" ∉ globalStatesAndProperties data)
    ∧ globalStatesAndProperties data = ["aria-all"].
Proof.
  eexists _, _. split; [by vm_compute|]. split; [by vm_compute|].
  split; [by vm_compute; eexists|].
  cbn [globalStatesAndProperties]. split; [|done].
  by intros [=]%list_elem_of_singleton.
Qed.

(** * Properties of the categorizer *)

Lemma first_match_set_category x role n :
  first_match (set_role_category x role) n = first_match role n.
Proof. by destruct role. Qed.

Lemma set_category_twice x y role :
  set_role_category x (set_role_category y role) = set_role_category x role.
Proof. by destruct role. Qed.

Lemma role_category_set x role : role_category (set_role_category x role) = x.
Proof. by destruct role. Qed.

Lemma categorized_fields n role :
  role_category (categorized n role) = Some (category_key (first_match role n))
  ∧ allProps (categorized n role) = allProps role
  ∧ localProps (categorized n role) = localProps role
  ∧ role_parentRoles (categorized n role) = role_parentRoles role
  ∧ superclassRoles (categorized n role) = superclassRoles role
  ∧ isAbstract (categorized n role) = isAbstract role.
Proof. by destruct role. Qed.

Lemma category_key_inj c c' : category_key c = category_key c' → c = c'.
Proof. by destruct c, c'. Qed.

(** The chain of lines 408-429 picks the first rule that matches. *)
Lemma categorize_step_spec categories roles n role :
  obj_get roles n = Some role →
  categorize_step (categories, roles) n
  = (cat_push (first_match role n) n categories,
     assign_category roles n (category_key (first_match role n))).
Proof.
  intros Hrole. unfold categorize_step, first_match, category_rules. rewrite Hrole.
  simpl.
  repeat (match goal with
          | |- context [if ?b then _ else _] => destruct b eqn:?; simpl; try done
          end).
Qed.

Lemma cat_list_push c c' x cs :
  cat_list c (cat_push c' x cs)
  = cat_list c cs ++ (if decide (c = c') then [x] else []).
Proof. destruct cs, c, c'; simpl; by rewrite ?app_nil_r. Qed.

Lemma category_of_assign roles k key n :
  category_of (assign_category roles k key) n = category_of roles n.
Proof.
  unfold category_of, assign_category. rewrite obj_get_update.
  case_decide; [|done]. destruct (obj_get roles n); simpl; [|done].
  by rewrite first_match_set_category.
Qed.

Lemma foldl_categorize ks :
  ∀ categories roles,
    (∀ k, k ∈ ks → is_Some (obj_get roles k)) →
    (∀ c, cat_list c (foldl categorize_step (categories, roles) ks).1
          = cat_list c categories
            ++ List.filter (λ n, bool_decide (category_of roles n = Some c)) ks)
    ∧ (∀ n, obj_get (foldl categorize_step (categories, roles) ks).2 n
            = (if decide (n ∈ ks) then categorized n else id) <$> obj_get roles n).
Proof.
  induction ks as [|k ks IH]; intros categories roles Hkeys; cbn [foldl].
  { split; [intros c; simpl; by rewrite app_nil_r|].
    intros n. destruct (decide (n ∈ [])) as [Hin|_]; [by apply elem_of_nil in Hin|].
    simpl. by destruct (obj_get roles n). }
  destruct (Hkeys k) as [role Hrole]; [left|].
  rewrite (categorize_step_spec _ _ _ _ Hrole).
  destruct (IH (cat_push (first_match role k) k categories)
              (assign_category roles k (category_key (first_match role k))))
    as [Hlists Hroles].
  { intros k' Hk'. unfold assign_category. rewrite obj_get_update.
    destruct (Hkeys k') as [r' Hr']; [by right|]. rewrite Hr'. by case_decide. }
  split.
  - intros c. rewrite Hlists, cat_list_push, <- app_assoc. f_equal.
    cbn [List.filter].
    rewrite (List.filter_ext _ (λ n, bool_decide (category_of roles n = Some c)))
      by (intros n; by rewrite category_of_assign).
    assert (category_of roles k = Some (first_match role k)) as ->
      by (unfold category_of; by rewrite Hrole).
    case_decide as Hc; case_bool_decide as Hc'; simplify_eq; done.
  - intros n. rewrite Hroles. unfold assign_category. rewrite obj_get_update.
    destruct (decide (k = n)) as [->|Hne].
    + rewrite Hrole. simpl. rewrite (decide_True (P := n ∈ n :: ks)) by left.
      f_equal. case_decide; [|done].
      unfold categorized. by rewrite first_match_set_category, set_category_twice.
    + destruct (obj_get roles n); simpl; [|done]. f_equal.
      destruct (decide (n ∈ ks)) as [Hin|Hin].
      * by rewrite decide_True by by right.
      * rewrite decide_False; [done|]. by intros [->|?]%elem_of_cons.
Qed.

(** Every category list is, in key order, the keys whose first matching
    rule is that category. *)
Lemma categorizeRoles_lists roles c :
  cat_list c (categorizeRoles roles).1
  = List.filter (λ n, bool_decide (category_of roles n = Some c)) (obj_keys roles).
Proof.
  unfold categorizeRoles.
  destruct (foldl_categorize (obj_keys roles) (mkCategories [] [] [] [] [] [] []) roles)
    as [Hlists _]; [by intros k ?%obj_get_is_Some|].
  rewrite Hlists. by destruct c.
Qed.

Lemma categorizeRoles_lookup roles n :
  obj_get (categorizeRoles roles).2 n = categorized n <$> obj_get roles n.
Proof.
  unfold categorizeRoles.
  destruct (foldl_categorize (obj_keys roles) (mkCategories [] [] [] [] [] [] []) roles)
    as [_ Hroles]; [by intros k ?%obj_get_is_Some|].
  rewrite Hroles. case_decide as Hin; [done|].
  apply obj_get_None in Hin. by rewrite Hin.
Qed.

Lemma elem_of_cat_list roles c n :
  n ∈ cat_list c (categorizeRoles roles).1 ↔ category_of roles n = Some c.
Proof.
  rewrite categorizeRoles_lists, list_elem_of_In, filter_In, <- list_elem_of_In,
    bool_decide_eq_true, <- obj_get_is_Some.
  split; [by intros [_ ?]|]. intros Hc. split; [|done].
  unfold category_of in Hc. destruct (obj_get roles n); [by eexists | done].
Qed.

(** C6.  Every role of the input is put in one category list, the one of
    the first rule that matches in the order abstract (flag or name list),
    landmark, liveRegion, window, composite, widget, with document when no
    rule matches; it is in no other list, it is there once, and the lists
    hold nothing but input roles. *)
Theorem categorizeRoles_exactly_one roles :
  NoDup (obj_keys roles) →
  (∀ n role, obj_get roles n = Some role →
     ∀ c, n ∈ cat_list c (categorizeRoles roles).1 ↔ c = first_match role n)
  ∧ (∀ c, NoDup (cat_list c (categorizeRoles roles).1))
  ∧ (∀ c n, n ∈ cat_list c (categorizeRoles roles).1 → n ∈ obj_keys roles).
Proof.
  intros Hnd. split; [|split].
  - intros n role Hrole c. rewrite elem_of_cat_list. unfold category_of.
    rewrite Hrole. simpl. split; [by intros [= <-] | by intros ->].
  - intros c. rewrite categorizeRoles_lists.
    apply NoDup_ListNoDup, List.NoDup_filter, NoDup_ListNoDup, Hnd.
  - intros c n. rewrite elem_of_cat_list, <- obj_get_is_Some. unfold category_of.
    destruct (obj_get roles n); [by eexists | done].
Qed.

Lemma categorizeRoles_exactly_one_witness :
  (∀ n role, obj_get (parseRoles sample_doc) n = Some role →
     ∀ c, n ∈ cat_list c (categorizeRoles (parseRoles sample_doc)).1
          ↔ c = first_match role n)
  ∧ (∀ c, NoDup (cat_list c (categorizeRoles (parseRoles sample_doc)).1))
  ∧ (∀ c n, n ∈ cat_list c (categorizeRoles (parseRoles sample_doc)).1 →
            n ∈ obj_keys (parseRoles sample_doc)).
Proof.
  apply (categorizeRoles_exactly_one (parseRoles sample_doc)).
  apply (bool_decide_unpack _). vm_compute. exact I.
Defined.

Lemma categorize_step_keys acc n :
  obj_keys (categorize_step acc n).2 = obj_keys acc.2.
Proof.
  destruct acc as [categories roles]. unfold categorize_step.
  destruct (obj_get roles n); [|done].
  repeat (match goal with
          | |- context [if ?b then _ else _] => destruct b
          end); apply obj_keys_update.
Qed.

Lemma categorizeRoles_keys roles : obj_keys (categorizeRoles roles).2 = obj_keys roles.
Proof.
  unfold categorizeRoles. generalize (obj_keys roles) at 1. intros ks.
  generalize (mkCategories [] [] [] [] [] [] []). revert roles.
  induction ks as [|k ks IH]; intros roles categories; cbn [foldl]; [done|].
  destruct (categorize_step (categories, roles) k) as [categories' roles'] eqn:Hstep.
  rewrite IH. pose proof (categorize_step_keys (categories, roles) k) as Hk.
  by rewrite Hstep in Hk.
Qed.

(** C10.  Categorization keeps the keys of the role map; a role of the
    input keeps its record, in which only the [category] field is set, to
    the key of one category, and its name is in the list of that category
    and of no other; a name that is no role of the input has no record and
    is in no list.  Hence a name is in the list of category [c] exactly when
    the record stored under it has [c] in its [category] field. *)
Theorem categorizeRoles_consistent roles c n :
  (n ∈ cat_list c (categorizeRoles roles).1
   ↔ ∃ role, obj_get (categorizeRoles roles).2 n = Some role
             ∧ role_category role = Some (category_key c))
  ∧ obj_keys (categorizeRoles roles).2 = obj_keys roles
  ∧ match obj_get roles n with
    | Some role =>
        ∃ c', obj_get (categorizeRoles roles).2 n
              = Some (set_role_category (Some (category_key c')) role)
              ∧ ∀ c'', n ∈ cat_list c'' (categorizeRoles roles).1 ↔ c'' = c'
    | None =>
        obj_get (categorizeRoles roles).2 n = None
        ∧ ∀ c'', n ∉ cat_list c'' (categorizeRoles roles).1
    end.
Proof.
  split; [|split; [apply categorizeRoles_keys|]].
  - rewrite elem_of_cat_list, categorizeRoles_lookup. unfold category_of.
    destruct (obj_get roles n) as [role|]; simpl.
    + split.
      * intros [= <-]. eexists. split; [done|]. apply categorized_fields.
      * intros (role' & [= <-] & Hcat).
        destruct (categorized_fields n role) as [Hc _]. rewrite Hc in Hcat.
        f_equal. apply category_key_inj. congruence.
    + split; [done | by intros (? & ? & _)].
  - destruct (obj_get roles n) as [role|] eqn:Hrole.
    + exists (first_match role n). split.
      * by rewrite categorizeRoles_lookup, Hrole.
      * intros c''. rewrite elem_of_cat_list. unfold category_of. rewrite Hrole.
        simpl. split; [by intros [= <-] | by intros ->].
    + split; [by rewrite categorizeRoles_lookup, Hrole|].
      intros c''. rewrite elem_of_cat_list. unfold category_of. by rewrite Hrole.
Qed.

(** * Properties of the assembled dataset *)

(** ** The merge of the inheritance table *)

Lemma merge_step_other roleInfo roles entry n :
  entry.1 ≠ n → obj_get (merge_step roleInfo roles entry) n = obj_get roles n.
Proof.
  destruct entry as [k info]. simpl. intros Hne.
  destruct (obj_get roles k); [|done]. rewrite obj_get_update. by rewrite decide_False.
Qed.

Lemma foldl_merge_step_other roleInfo entries roles n :
  n ∉ entries.*1 →
  obj_get (foldl (merge_step roleInfo) roles entries) n = obj_get roles n.
Proof.
  revert roles. induction entries as [|entry entries IH]; intros roles Hn; simpl; [done|].
  rewrite fmap_cons, not_elem_of_cons in Hn. destruct Hn as [Hne Hn].
  rewrite IH by done. by apply merge_step_other.
Qed.

Lemma merge_roleInfo_keys roleInfo roles :
  obj_keys (merge_roleInfo roleInfo roles) = obj_keys roles.
Proof.
  unfold merge_roleInfo. generalize (map_to_list roleInfo). intros entries.
  revert roles. induction entries as [|[k info] entries IH]; intros roles; simpl; [done|].
  rewrite IH. unfold merge_step.
  destruct (obj_get roles k); [apply obj_keys_update | reflexivity].
Qed.

(** A role whose name the table lacks is left as the extractor made it. *)
Lemma merge_roleInfo_absent roleInfo roles n :
  roleInfo !! n = None → obj_get (merge_roleInfo roleInfo roles) n = obj_get roles n.
Proof.
  intros Habs. apply foldl_merge_step_other.
  intros [[k info] [Hk Hin]]%list_elem_of_fmap. simpl in Hk. subst k.
  apply elem_of_map_to_list in Hin. congruence.
Qed.

Lemma foldl_merge_step_entry roleInfo entries roles n info :
  NoDup entries.*1 → (n, info) ∈ entries →
  obj_get (foldl (merge_step roleInfo) roles entries) n
  = obj_get (merge_step roleInfo roles (n, info)) n.
Proof.
  revert roles. induction entries as [|[k i] entries IH]; intros roles Hnd Hin.
  { by apply elem_of_nil in Hin. }
  rewrite fmap_cons in Hnd. apply NoDup_cons in Hnd as [Hk Hnd]. cbn [foldl].
  apply elem_of_cons in Hin as [[= <- <-]|Hin].
  - by apply foldl_merge_step_other.
  - assert (k ≠ n) as Hne.
    { intros ->. apply Hk, list_elem_of_fmap. by exists (n, info). }
    rewrite IH by done.
    pose proof (merge_step_other roleInfo roles (k, i) n Hne) as Hsame.
    set (roles1 := merge_step roleInfo roles (k, i)) in *.
    cbn [merge_step]. rewrite Hsame.
    destruct (obj_get roles n) eqn:Hget; [|by rewrite Hsame].
    rewrite !obj_get_update, !decide_True by done. by rewrite Hsame, Hget.
Qed.

(** A role that has a table entry is given the three fields of lines
    479-482, [allProps] being what [buildAllProps] resolves for its name. *)
Lemma merge_roleInfo_present roleInfo roles n info role :
  roleInfo !! n = Some info → obj_get roles n = Some role →
  ∃ role', obj_get (merge_roleInfo roleInfo roles) n = Some role'
           ∧ allProps role' = Some (buildAllProps_top n roleInfo)
           ∧ localProps role' = Some (default [] (localprops info))
           ∧ role_parentRoles role' = Some (default [] (parentRoles info))
           ∧ superclassRoles role' = superclassRoles role
           ∧ isAbstract role' = isAbstract role.
Proof.
  intros Hinfo Hrole. unfold merge_roleInfo.
  rewrite (foldl_merge_step_entry _ _ _ n info).
  - simpl. rewrite Hrole, obj_get_update, decide_True, Hrole by done. simpl.
    eexists. split; [done|]. by destruct role.
  - apply NoDup_fst_map_to_list.
  - by apply elem_of_map_to_list.
Qed.

Lemma parseRoleInfoJS_table file : (parseRoleInfoJS file).1 = loaded_table file.
Proof. by destruct file. Qed.

(** C5, as the code has it.  A role of the primary document whose name the
    inheritance table lacks is written out with no [allProps], no
    [localProps] and no [parentRoles] field: the fields are absent, they are
    not empty lists.  Its prose-derived [superclassRoles] are written as
    extracted and take no part in it.  Resolving the name itself gives the
    empty list. *)
Theorem absent_role_unresolved fs doc roleName role :
  aria_index fs = Some doc →
  obj_get (parseRoles doc) roleName = Some role →
  loaded_table (roleInfo_js fs) !! roleName = None →
  ∃ path data role',
    written (main fs) = Some (path, data)
    ∧ obj_get (roles data) roleName = Some role'
    ∧ allProps role' = None
    ∧ localProps role' = None
    ∧ role_parentRoles role' = None
    ∧ superclassRoles role' = superclassRoles role
    ∧ buildAllProps_top roleName (loaded_table (roleInfo_js fs)) = [].
Proof.
  intros Hdoc Hrole Habs. unfold main. rewrite Hdoc.
  eexists _, _, (categorized roleName role). split; [done|]. cbn [roles].
  rewrite categorizeRoles_lookup, parseRoleInfoJS_table, merge_roleInfo_absent, Hrole
    by done.
  split; [done|].
  destruct (categorized_fields roleName role) as (_ & -> & -> & -> & -> & _).
  rewrite parseRoles_lookup in Hrole.
  destruct (defining_block _ _) as [b|]; [|done]. simpl in Hrole. simplify_eq.
  destruct (parse_role_block_later_fields roleName b) as (-> & -> & -> & _).
  repeat split. by apply buildAllProps_absent.
Qed.

Lemma absent_role_unresolved_witness :
  ∃ path data role',
    written (main sample_fs) = Some (path, data)
    ∧ obj_get (roles data) "command" = Some role'
    ∧ allProps role' = None
    ∧ localProps role' = None
    ∧ role_parentRoles role' = None
    ∧ superclassRoles role' = superclassRoles (parse_role_block "command" not_true_block)
    ∧ buildAllProps_top "command" (loaded_table (roleInfo_js sample_fs)) = [].
Proof.
  apply (absent_role_unresolved sample_fs sample_doc "command"
           (parse_role_block "command" not_true_block)).
  - reflexivity.
  - vm_compute. reflexivity.
  - vm_compute. reflexivity.
Defined.

(** C5 as stated fails on [sample_fs]: the role [command] has a prose
    superclass and no table entry, and its record is written without an
    [allProps] field, which is not the empty list. *)
Lemma absent_role_unresolved_counterexample :
  ∃ path data role,
    written (main sample_fs) = Some (path, data)
    ∧ loaded_table (roleInfo_js sample_fs) !! "command" = None
    ∧ obj_get (roles data) "command" = Some role
    ∧ superclassRoles role = ["widget"]
    ∧ allProps role = None
    ∧ allProps role ≠ Some [].
Proof.
  eexists _, _, _. split; [by vm_compute|]. split; [by vm_compute|].
  split; [by vm_compute|]. split; [by vm_compute|]. split; [by vm_compute|]. done.
Qed.

(** ** Missing sources *)


Lemma module_step_blocks module blocks name :
  obj_get (foldl (module_step module) [] blocks) name
  = module_entry module name <$> defining_block blocks name.
Proof. apply (obj_get_foldl_blocks (module_entry module)). Qed.

Lemma parseDpubAria_lookup file name :
  obj_get (parseDpubAria file).1 name
  = module_entry "dpub-aria" name <$> defining_block (module_blocks file) name.
Proof. destruct file; [apply module_step_blocks | done]. Qed.

Lemma parseGraphicsAria_lookup file name :
  obj_get (parseGraphicsAria file).1 name
  = module_entry "graphics-aria" name <$> defining_block (module_blocks file) name.
Proof. destruct file; [apply module_step_blocks | done]. Qed.

(** ** Extension modules *)

(** C8.  Replacing the extension-module documents of a run changes neither
    the primary role map nor the category index.  The roles of a module are
    found under [extensions] in the collection of that module only, each
    made from the last block of that module that carries the name and
    tagged with the module: a name defined by both modules, or by a module
    and the primary document, has one entry in each collection. *)
Theorem extension_roles_isolated fs doc dpubDoc graphicsDoc :
  aria_index fs = Some doc →
  ∃ path data data',
    written (main fs) = Some (path, data)
    ∧ written (main (with_modules fs dpubDoc graphicsDoc)) = Some (path, data')
    ∧ roles data' = roles data
    ∧ roleCategories data' = roleCategories data
    ∧ (∀ name, obj_get (dpub (extensions data')) name
               = module_entry "dpub-aria" name
                 <$> defining_block (module_blocks dpubDoc) name)
    ∧ (∀ name, obj_get (graphics (extensions data')) name
               = module_entry "graphics-aria" name
                 <$> defining_block (module_blocks graphicsDoc) name).
Proof.
  intros Hdoc. unfold main, with_modules. simpl. rewrite Hdoc.
  eexists _, _, _. split; [done|]. split; [done|]. simpl.
  split; [done|]. split; [done|]. split.
  - apply parseDpubAria_lookup.
  - apply parseGraphicsAria_lookup.
Qed.

Lemma extension_roles_isolated_witness :
  ∃ path data data',
    written (main sample_fs) = Some (path, data)
    ∧ written (main (with_modules sample_fs None (dpub_index sample_fs)))
      = Some (path, data')
    ∧ roles data' = roles data
    ∧ roleCategories data' = roleCategories data
    ∧ (∀ name, obj_get (dpub (extensions data')) name
               = module_entry "dpub-aria" name
                 <$> defining_block (module_blocks None) name)
    ∧ (∀ name, obj_get (graphics (extensions data')) name
               = module_entry "graphics-aria" name
                 <$> defining_block (module_blocks (dpub_index sample_fs)) name).
Proof.
  apply (extension_roles_isolated sample_fs sample_doc None (dpub_index sample_fs)).
  reflexivity.
Defined.

(** The scenario of the specification on [sample_fs]: the primary document
    and both modules define [doc-example]; the dataset holds three
    entries, one per collection, none overwriting another. *)
Example doc_example_kept_apart :
  ∃ path data primary,
    written (main sample_fs) = Some (path, data)
    ∧ obj_get (roles data) "doc-example" = Some primary
    ∧ role_description primary = "A primary role."
    ∧ obj_get (dpub (extensions data)) "doc-example"
      = Some (mkModuleRole "doc-example" "dpub-aria" "A DPUB role.")
    ∧ obj_get (graphics (extensions data)) "doc-example"
      = Some (mkModuleRole "doc-example" "graphics-aria" "A graphics role.").
Proof. eexists _, _, _. repeat split; by vm_compute. Qed.
(** * The run when [roleInfo.js] has any shape *)

(** ** The resolver on entries of any shape *)

Section RawResolver.
Context (value : gmap string RawEntry).

Lemma for_parents_raw_sim rec_raw rec parents :
  (∀ p v, simulates (rec_raw p v) (rec p v)) →
  ∀ props v, simulates (for_parents_raw rec_raw parents props v)
                       (for_parents rec parents props v).
Proof.
  intros Hrec. induction parents as [|p parents IH]; intros props v; simpl; [done|].
  specialize (Hrec p v). unfold simulates in Hrec.
  destruct (rec_raw p v) as [[[pp v1]|]|]; rewrite ?Hrec; [apply IH|done|done].
Qed.

Lemma buildAllProps_raw_fuel_sim fuel :
  ∀ r v, simulates (buildAllProps_raw_fuel fuel r value v)
                   (buildAllProps_fuel fuel r (read_table value) v).
Proof.
  induction fuel as [|fuel IH]; intros r v; simpl; [done|].
  case_decide; [done|]. unfold read_table. rewrite lookup_fmap.
  destruct (value !! r) as [[| |role]|]; simpl; try done.
  destruct (allprops role); [done|]. destruct (parentRoles role); [|done].
  by apply for_parents_raw_sim.
Qed.

(** The resolver returns or throws: the budget is never exhausted. *)
Lemma buildAllProps_raw_total r v :
  ∃ outcome, buildAllProps_raw r value v = Some outcome.
Proof.
  pose proof (buildAllProps_raw_fuel_sim (S (size value)) r v) as Hsim.
  destruct (buildAllProps_total (read_table value) r v) as (ps & v' & Hrun).
  unfold buildAllProps, read_table in Hrun. rewrite map_size_fmap in Hrun.
  unfold buildAllProps_raw.
  destruct (buildAllProps_raw_fuel _ _ _ _) as [outcome|]; [by exists outcome|].
  unfold simulates, read_table in Hsim. congruence.
Qed.

Lemma for_parents_raw_threw rec_raw parents :
  ∀ props v, for_parents_raw rec_raw parents props v = Some threw →
    ∃ p v1, p ∈ parents ∧ rec_raw p v1 = Some threw.
Proof.
  induction parents as [|p parents IH]; intros props v Hrun; simpl in Hrun; [done|].
  destruct (rec_raw p v) as [[[pp v1]|]|] eqn:Hp; [|..|done].
  - destruct (IH _ _ Hrun) as (q & v2 & Hq & Hthrew). exists q, v2. split; [by right|done].
  - exists p, v. split; [by left|done].
Qed.

(** A throw comes from an entry that cannot be iterated and that the
    edges of the resolver lead to. *)
Lemma buildAllProps_raw_fuel_threw fuel :
  ∀ r v, buildAllProps_raw_fuel fuel r value v = Some threw →
    reaches_not_iterable value r.
Proof.
  induction fuel as [|fuel IH]; intros r v Hrun; simpl in Hrun; [done|].
  case_decide; [done|].
  destruct (value !! r) as [[| |role]|] eqn:Hr; try done.
  { exists r. split; [done|done]. }
  destruct (allprops role) eqn:Hall; [done|].
  destruct (parentRoles role) as [parents|] eqn:Hparents; [|done].
  apply for_parents_raw_threw in Hrun as (p & v1 & Hp & Hthrew).
  destruct (IH _ _ Hthrew) as (n & Hpath & Hn). exists n. split; [|done].
  eapply rtc_l; [|done]. exists role, parents.
  unfold read_table. by rewrite lookup_fmap, Hr.
Qed.

Lemma for_parents_raw_clean rec_raw parents :
  (∀ p v ps v', rec_raw p v = Some (returned (ps, v')) →
     ∀ n, n ∈ v' → n ∉ v → value !! n ≠ Some raw_not_iterable) →
  ∀ props v ps v', for_parents_raw rec_raw parents props v = Some (returned (ps, v')) →
    ∀ n, n ∈ v' → n ∉ v → value !! n ≠ Some raw_not_iterable.
Proof.
  intros Hrec. induction parents as [|p parents IH]; intros props v ps v' Hrun n Hn Hnv;
    simpl in Hrun.
  { by simplify_eq. }
  destruct (rec_raw p v) as [[[pp v1]|]|] eqn:Hp; [|done|done].
  destruct (decide (n ∈ v1)) as [Hin|Hout].
  - by eapply Hrec.
  - by eapply IH.
Qed.

(** A call that returns has visited no entry that cannot be iterated. *)
Lemma buildAllProps_raw_fuel_clean fuel :
  ∀ r v ps v', buildAllProps_raw_fuel fuel r value v = Some (returned (ps, v')) →
    ∀ n, n ∈ v' → n ∉ v → value !! n ≠ Some raw_not_iterable.
Proof.
  induction fuel as [|fuel IH]; intros r v ps v' Hrun n Hn Hnv; simpl in Hrun; [done|].
  case_decide as Hvis; [by simplify_eq|].
  assert (∀ m, m ∈ ({[r]} ∪ v : gset string) → m ∉ v → m = r) as Hfresh by set_solver.
  destruct (value !! r) as [[| |role]|] eqn:Hr; try done.
  - simplify_eq. rewrite (Hfresh n) by done. congruence.
  - destruct (allprops role); [simplify_eq; rewrite (Hfresh n) by done; congruence|].
    destruct (parentRoles role) as [parents|];
      [|simplify_eq; rewrite (Hfresh n) by done; congruence].
    destruct (decide (n = r)) as [->|Hne]; [congruence|].
    eapply (for_parents_raw_clean _ parents); [| exact Hrun | done | set_solver].
    intros p v1 ps1 v1' Hp. exact (IH _ _ _ _ Hp).
  - simplify_eq. rewrite (Hfresh n) by done. congruence.
Qed.

(** The call of line 482 throws exactly when the resolution of the role
    comes to an entry that cannot be iterated. *)
Lemma buildAllProps_raw_top_threw r :
  buildAllProps_raw_top r value = threw ↔ reaches_not_iterable value r.
Proof.
  unfold buildAllProps_raw_top.
  destruct (buildAllProps_raw_total r ∅) as [outcome Hrun]. rewrite Hrun.
  split.
  - destruct outcome as [[ps v']|]; [done|]. intros _.
    by eapply buildAllProps_raw_fuel_threw.
  - intros (n & Hpath & Hn). destruct outcome as [[ps v']|]; [|done]. exfalso.
    pose proof (buildAllProps_raw_fuel_sim (S (size value)) r ∅) as Hsim.
    unfold buildAllProps_raw in Hrun. rewrite Hrun in Hsim. unfold simulates in Hsim.
    pose proof (buildAllProps_fuel_ok _ _ _ _ _ _ Hsim) as Hok.
    eapply (buildAllProps_raw_fuel_clean _ _ _ _ _ Hrun n); [|set_solver|done].
    eapply (visit_ok_reachable _ _ _ _ _ r n Hok); [|set_solver|done|set_solver].
    apply (visit_self _ _ _ _ _ Hok).
Qed.

(** When it returns, it returns what the resolver does on [read_table]. *)
Lemma buildAllProps_raw_top_returned r props :
  buildAllProps_raw_top r value = returned props →
  props = buildAllProps_top r (read_table value).
Proof.
  unfold buildAllProps_raw_top, buildAllProps_top.
  pose proof (buildAllProps_raw_fuel_sim (S (size value)) r ∅) as Hsim.
  destruct (buildAllProps_raw_total r ∅) as [outcome Hrun]. rewrite Hrun.
  unfold buildAllProps_raw in Hrun. rewrite Hrun in Hsim.
  destruct outcome as [[ps v']|]; [|done]. unfold simulates in Hsim. intros [= <-].
  unfold buildAllProps, read_table in *. rewrite map_size_fmap. by rewrite Hsim.
Qed.
End RawResolver.

(** ** The merge on entries of any shape *)

Lemma obj_ext {A} (o1 o2 : JsObj A) :
  obj_keys o1 = obj_keys o2 → NoDup (obj_keys o1) →
  (∀ k, obj_get o1 k = obj_get o2 k) → o1 = o2.
Proof.
  revert o2. induction o1 as [|[k v] o1 IH]; intros [|[k' v'] o2]; try done.
  unfold obj_keys. rewrite !fmap_cons. simpl. intros [= <- Hkeys] [Hk Hnd]%NoDup_cons Hget.
  pose proof (Hget k) as Hhead. simpl in Hhead. rewrite String.eqb_refl in Hhead.
  injection Hhead as <-. f_equal. apply IH; [done..|].
  intros k0. specialize (Hget k0). simpl in Hget.
  destruct (String.eqb_spec k k0) as [Heq|Hne]; [subst k0|done].
  transitivity (@None A); [|symmetry]; apply obj_get_None; unfold obj_keys; congruence.
Qed.

Lemma merge_entry_raw_threw value k info :
  value !! k = Some info →
  merge_entry_raw value k info = threw
  ↔ info = raw_null ∨ reaches_not_iterable value k.
Proof.
  intros Hk. destruct info as [| |entry]; simpl.
  - split; [by left|done].
  - split; [|done]. intros _. right. by exists k.
  - pose proof (buildAllProps_raw_top_threw value k) as Htop.
    destruct (buildAllProps_raw_top k value) as [props|].
    + split; [done|]. intros [?|Hreach]; [done|]. by apply Htop in Hreach.
    + split; [|done]. intros _. right. by apply Htop.
Qed.

Lemma foldl_merge_step_raw_threw value entries :
  foldl (merge_step_raw value) threw entries = threw.
Proof. induction entries as [|[k info] entries IH]; [done|]. simpl. apply IH. Qed.

(** What the loop of lines 477-484 leaves: it throws at an entry whose
    role exists and whose lines 479-482 throw; otherwise the keys are
    kept, a role without an entry is left alone, and a role with an entry
    has had lines 479-482 applied to its record. *)
Lemma foldl_merge_step_raw value entries :
  NoDup entries.*1 →
  ∀ roles,
    match foldl (merge_step_raw value) (returned roles) entries with
    | threw =>
        ∃ k info, (k, info) ∈ entries ∧ is_Some (obj_get roles k)
                  ∧ merge_entry_raw value k info = threw
    | returned merged =>
        obj_keys merged = obj_keys roles
        ∧ (∀ n, n ∉ entries.*1 → obj_get merged n = obj_get roles n)
        ∧ (∀ k info, (k, info) ∈ entries →
             match obj_get roles k with
             | None => obj_get merged k = None
             | Some role =>
                 ∃ change, merge_entry_raw value k info = returned change
                           ∧ obj_get merged k = Some (change role)
             end)
    end.
Proof.
  induction entries as [|[k info] entries IH]; intros Hnd roles.
  { simpl. split; [done|]. split; [done|]. by intros k info ?%elem_of_nil. }
  rewrite fmap_cons in Hnd. apply NoDup_cons in Hnd as [Hk Hnd]. simpl in Hk.
  cbn [foldl merge_step_raw].
  destruct (obj_get roles k) as [role|] eqn:Hrole.
  - destruct (merge_entry_raw value k info) as [change|] eqn:Hentry.
    + specialize (IH Hnd (obj_update roles k change)).
      destruct (foldl _ _ entries) as [merged|].
      * destruct IH as (Hkeys & Hout & Hin). split; [by rewrite Hkeys, obj_keys_update|].
        split.
        -- intros n [Hne Hn]%not_elem_of_cons. simpl in Hne.
           rewrite Hout, obj_get_update by done. by rewrite decide_False.
        -- intros k' info' [[= -> ->]|Hin']%elem_of_cons.
           ++ rewrite Hrole. exists change. split; [done|].
              rewrite Hout, obj_get_update, decide_True, Hrole by done. done.
           ++ assert (k ≠ k') as Hne.
              { intros ->. apply Hk, list_elem_of_fmap. by exists (k', info'). }
              specialize (Hin k' info' Hin'). rewrite obj_get_update in Hin.
              by rewrite decide_False in Hin.
      * destruct IH as (k' & info' & Hin' & Hsome & Hthrew). exists k', info'.
        split; [by right|]. split; [|done].
        rewrite obj_get_update in Hsome. case_decide; [|done].
        subst. by rewrite Hrole.
    + rewrite foldl_merge_step_raw_threw. exists k, info.
      split; [by left|]. split; [by eexists|done].
  - specialize (IH Hnd roles). destruct (foldl _ _ entries) as [merged|].
    + destruct IH as (Hkeys & Hout & Hin). split; [done|]. split.
      * intros n [Hne Hn]%not_elem_of_cons. by apply Hout.
      * intros k' info' [[= -> ->]|Hin']%elem_of_cons; [|by apply Hin].
        rewrite Hrole. by rewrite Hout.
    + destruct IH as (k' & info' & Hin' & Hsome & Hthrew). exists k', info'.
      split; [by right|done].
Qed.

(** The merge throws exactly in the case [merge_throws] describes. *)
Lemma merge_raw_threw value roles :
  merge_raw value roles = threw ↔ merge_throws value roles.
Proof.
  unfold merge_raw, merge_throws.
  pose proof (foldl_merge_step_raw value (map_to_list value)
                (NoDup_fst_map_to_list value) roles) as Hfold.
  destruct (foldl _ _ _) as [merged|].
  - split; [done|]. intros (k & info & Hk & [role Hrole] & Hthrows). exfalso.
    destruct Hfold as (_ & _ & Hin).
    specialize (Hin k info (proj2 (elem_of_map_to_list _ _ _) Hk)).
    rewrite Hrole in Hin. destruct Hin as (change & Hentry & _).
    apply (merge_entry_raw_threw _ _ _ Hk) in Hthrows. congruence.
  - split; [|done]. intros _. destruct Hfold as (k & info & Hin & Hsome & Hthrew).
    apply elem_of_map_to_list in Hin. exists k, info. split; [done|]. split; [done|].
    by apply (merge_entry_raw_threw _ _ _ Hin).
Qed.

(** When the merge returns, it returns what the merge of [read_table]
    does: a faulty entry it has come across would have made it throw. *)
Lemma merge_raw_returned value roles merged :
  NoDup (obj_keys roles) →
  merge_raw value roles = returned merged →
  merged = merge_roleInfo (read_table value) roles.
Proof.
  intros Hnd Hrun. unfold merge_raw in Hrun.
  pose proof (foldl_merge_step_raw value (map_to_list value)
                (NoDup_fst_map_to_list value) roles) as Hfold.
  rewrite Hrun in Hfold. destruct Hfold as (Hkeys & Hout & Hin).
  apply obj_ext.
  - by rewrite Hkeys, merge_roleInfo_keys.
  - by rewrite Hkeys.
  - intros n. destruct (value !! n) as [info|] eqn:Hn.
    + specialize (Hin n info (proj2 (elem_of_map_to_list _ _ _) Hn)).
      destruct (obj_get roles n) as [role|] eqn:Hrole.
      * destruct Hin as (change & Hentry & ->).
        destruct info as [| |entry]; simpl in Hentry; [done..|].
        destruct (buildAllProps_raw_top n value) as [props|] eqn:Htop; [|done].
        apply buildAllProps_raw_top_returned in Htop. simplify_eq.
        unfold merge_roleInfo.
        rewrite (foldl_merge_step_entry _ _ _ n entry).
        -- simpl. by rewrite Hrole, obj_get_update, decide_True, Hrole.
        -- apply NoDup_fst_map_to_list.
        -- apply elem_of_map_to_list. unfold read_table. by rewrite lookup_fmap, Hn.
      * rewrite Hin. symmetry. apply obj_get_None.
        rewrite merge_roleInfo_keys. by apply obj_get_None.
    + rewrite Hout.
      * symmetry. apply merge_roleInfo_absent. unfold read_table.
        by rewrite lookup_fmap, Hn.
      * intros [[k info] [Hk Hin']]%list_elem_of_fmap. simpl in Hk. subst k.
        apply elem_of_map_to_list in Hin'. congruence.
Qed.

Lemma read_table_typed table : read_table (raw_object <$> table) = table.
Proof.
  apply map_eq. intros n. unfold read_table. rewrite !lookup_fmap.
  by destruct (table !! n).
Qed.

Lemma well_shaped_typed table : well_shaped (raw_object <$> table).
Proof.
  intros n info. rewrite lookup_fmap. destruct (table !! n) as [entry|]; [|done].
  intros [= <-]. by exists entry.
Qed.

(** A table of well-shaped entries never makes the merge throw. *)
Lemma well_shaped_merges value roles : well_shaped value → ¬ merge_throws value roles.
Proof.
  intros Hshape (k & info & Hk & _ & [->|(n & _ & Hn)]).
  - by destruct (Hshape _ _ Hk).
  - by destruct (Hshape _ _ Hn).
Qed.

Lemma merge_raw_typed table roles :
  NoDup (obj_keys roles) →
  merge_raw (raw_object <$> table) roles = returned (merge_roleInfo table roles).
Proof.
  intros Hnd. destruct (merge_raw (raw_object <$> table) roles) as [merged|] eqn:Hrun.
  - apply merge_raw_returned in Hrun; [|done]. by rewrite read_table_typed in Hrun; subst.
  - apply merge_raw_threw in Hrun. by apply well_shaped_merges in Hrun; [|apply well_shaped_typed].
Qed.

(** [main] is the run of line 543 in the environments whose [roleInfo.js]
    has entries of the shape [RoleInfoEntry] only. *)
Lemma main_catch_typed fs thrown : main_catch (typed_environment fs thrown) = main fs.
Proof.
  destruct fs as [dir primary info acc aam dp gr now].
  unfold main_catch, main. cbn [typed_environment env_aria_index aria_index
    env_dataDir dataDir env_roleInfo_js roleInfo_js env_accname_index accname_index
    env_html_aam_index html_aam_index env_dpub_index dpub_index env_graphics_index
    graphics_index env_clock clock env_thrown].
  destruct primary as [doc|]; [|done].
  assert (merge_raw (parseRoleInfoJS_raw (typed_script info)).1 (parseRoles doc)
          = returned (merge_roleInfo (parseRoleInfoJS info).1 (parseRoles doc))) as ->.
  { destruct info as [| | msg | table]; simpl; try done.
    apply merge_raw_typed, parseRoles_NoDup. }
  assert (size (parseRoleInfoJS_raw (typed_script info)).1 = size (parseRoleInfoJS info).1)
    as ->.
  { destruct info as [| | msg | table]; simpl; try done. apply map_size_fmap. }
  assert ((parseRoleInfoJS_raw (typed_script info)).2 = (parseRoleInfoJS info).2) as ->
    by by destruct info.
  cbv zeta. f_equal. by rewrite <- !app_assoc.
Qed.




(** The two faults at work.  With [{ "checkbox": null }] line 479 throws,
    with a parent whose [parentRoles] is [5] line 214 does: the run prints
    the error last, writes nothing and sets no exit status.  The same
    faults under names that no role of the document uses or inherits from
    are not met, and the dataset is written. *)
Lemma main_catch_faults :
  written (main_catch (switch_env null_entry_value)) = None
  ∧ exit_status (main_catch (switch_env null_entry_value)) = None
  ∧ last (console (main_catch (switch_env null_entry_value)))
    = Some (console_error ["TypeError"])
  ∧ written (main_catch (switch_env scalar_parents_value)) = None
  ∧ exit_status (main_catch (switch_env scalar_parents_value)) = None
  ∧ last (console (main_catch (switch_env scalar_parents_value)))
    = Some (console_error ["TypeError"])
  ∧ is_Some (written (main_catch (switch_env unused_faults_value))).
Proof. repeat split; try by vm_compute. vm_compute. by eexists. Qed.

(** * Further properties of the resolver *)

Lemma elem_of_push_missing props parentProps e :
  e ∈ push_missing props parentProps → e ∈ props ∨ e ∈ parentProps.
Proof.
  revert props. induction parentProps as [|q rest IH]; intros props He; simpl in He.
  - by left.
  - destruct (List.find _ props).
    + apply IH in He as [?|?]; [by left | right; by right].
    + apply IH in He as [He|He]; [|right; by right].
      apply elem_of_app in He as [He|He]; [by left|].
      apply list_elem_of_singleton in He as ->. right. left.
Qed.

Section Provenance.
Context (roleInfo : gmap string RoleInfoEntry).

Local Abbreviation entries_from := (entries_from roleInfo).

Lemma for_parents_entries rec parents :
  (∀ p v ps v', rec p v = Some (ps, v') → v ⊆ v' ∧ entries_from v ps v') →
  ∀ props v ps v', for_parents rec parents props v = Some (ps, v') →
    v ⊆ v'
    ∧ ∀ e, e ∈ ps → e ∈ props ∨ ∃ n, n ∈ v' ∧ (n ∉ v) ∧ e ∈ own_list roleInfo n.
Proof.
  intros Hrec. induction parents as [|p parents IH]; intros props v ps v' Hrun;
    simpl in Hrun.
  - simplify_eq. split; [done | by left].
  - destruct (rec p v) as [[pp v1]|] eqn:Hcall; [|done].
    apply Hrec in Hcall as [Hmono Hpp].
    apply IH in Hrun as [Hmono' Hps]. split; [set_solver|].
    intros e He. apply Hps in He as [He|(n & Hn & Hnv & He)].
    + apply elem_of_push_missing in He as [He|He]; [by left|].
      right. destruct (Hpp e He) as (n & Hn & Hnv & Hown).
      exists n. split; [set_solver | done].
    + right. exists n. split; [done|]. split; [set_solver | done].
Qed.

Lemma buildAllProps_fuel_entries fuel :
  ∀ r v ps v', buildAllProps_fuel fuel r roleInfo v = Some (ps, v') →
    v ⊆ v' ∧ entries_from v ps v'.
Proof.
  induction fuel as [|fuel IH]; intros r v ps v' Hrun; [done|].
  simpl in Hrun. case_decide as Hvis.
  { simplify_eq. split; [done|]. by intros e ?%elem_of_nil. }
  assert (∀ own, own = own_list roleInfo r →
            ({[r]} ∪ v : gset string) ⊆ {[r]} ∪ v
            ∧ ∀ e, e ∈ own → ∃ n, n ∈ ({[r]} ∪ v : gset string) ∧ (n ∉ v)
                                   ∧ e ∈ own_list roleInfo n) as Hleaf.
  { intros own -> . split; [done|]. intros e He. exists r. set_solver. }
  unfold own_list in Hleaf.
  destruct (roleInfo !! r) as [role|] eqn:Hrole.
  2:{ simplify_eq. split; [set_solver|]. by intros e ?%elem_of_nil. }
  destruct (allprops role) as [own|] eqn:Hall.
  { simplify_eq. destruct (Hleaf ps eq_refl) as [_ Hown]. split; [set_solver|].
    intros e He. destruct (Hown e He) as (n & Hn & Hnv & Hen).
    exists n. unfold own_list. by destruct (decide (n = r)) as [->|]; [rewrite Hrole, Hall|]. }
  destruct (Hleaf _ eq_refl) as [_ Hown].
  assert (∀ e, e ∈ default [] (localprops role) →
            ∃ n, n ∈ ({[r]} ∪ v : gset string) ∧ (n ∉ v) ∧ e ∈ own_list roleInfo n)
    as Hlocal.
  { intros e He. exists r. split; [set_solver|]. split; [done|].
    unfold own_list. by rewrite Hrole, Hall. }
  destruct (parentRoles role) as [parents|].
  2:{ simplify_eq. split; [set_solver | done]. }
  apply (for_parents_entries _ parents IH) in Hrun as [Hmono Hps].
  split; [set_solver|].
  intros e He. apply Hps in He as [He|(n & Hn & Hnv & He)].
  - destruct (Hlocal e He) as (n & Hn & Hnv & Hen).
    exists n. split; [set_solver | done].
  - exists n. split; [done|]. split; [set_solver | done].
Qed.
End Provenance.

(** X1.  Resolving a role with a fresh visited set visits exactly the
    names that the followed parent references reach from it, and the names
    of the properties it returns are exactly those of the own lists of the
    reached roles; loops in the references change neither. *)
Theorem buildAllProps_reachable roleInfo roleName :
  ∃ props visited',
    buildAllProps roleName roleInfo ∅ = Some (props, visited')
    ∧ (∀ n, n ∈ visited' ↔ rtc (follows roleInfo) roleName n)
    ∧ (∀ x, x ∈ names props
            ↔ ∃ n, rtc (follows roleInfo) roleName n ∧ x ∈ names (own_list roleInfo n)).
Proof.
  destruct (buildAllProps_total roleInfo roleName ∅) as (ps & v' & Hrun).
  pose proof (buildAllProps_fuel_ok _ _ _ _ _ _ Hrun) as Hok.
  assert (∀ n, n ∈ v' ↔ rtc (follows roleInfo) roleName n) as Hreach.
  { intros n. split.
    - intros Hn. by apply (visit_reach _ _ _ _ _ Hok).
    - intros Hpath.
      eapply (visit_ok_reachable _ _ _ _ _ roleName n Hok); [|done..].
      by eapply visit_self. }
  exists ps, v'. split; [done|]. split; [done|].
  intros x. rewrite (visit_names _ _ _ _ _ Hok). split.
  - intros (n & Hn & _ & Hx). exists n. by rewrite <- Hreach.
  - intros (n & Hn & Hx). exists n. by rewrite Hreach.
Qed.

(** X2.  The list resolved for a role begins with the role's own list
    (its [allprops], else its [localprops]), entry for entry and in its
    order; what is inherited comes after it. *)
Theorem buildAllProps_own_first roleInfo roleName :
  ∃ props visited',
    buildAllProps roleName roleInfo ∅ = Some (props, visited')
    ∧ own_list roleInfo roleName `prefix_of` props.
Proof.
  destruct (buildAllProps_total roleInfo roleName ∅) as (ps & v' & Hrun).
  exists ps, v'. split; [done|].
  apply buildAllProps_fuel_merged in Hrun as (raw & _ & rest & _ & ->).
  rewrite start_list_fresh. by eexists.
Qed.

(** X3.  Every entry of a resolved list is an entry, unchanged, of the own
    list of the role itself or of a role its parent references reach:
    resolution copies entries, it neither builds nor alters one. *)
Theorem buildAllProps_entries_inherited roleInfo roleName :
  ∃ props visited',
    buildAllProps roleName roleInfo ∅ = Some (props, visited')
    ∧ Forall (λ e, ∃ n, rtc (follows roleInfo) roleName n ∧ e ∈ own_list roleInfo n)
        props.
Proof.
  destruct (buildAllProps_total roleInfo roleName ∅) as (ps & v' & Hrun).
  exists ps, v'. split; [done|]. apply Forall_forall. intros e He.
  destruct (buildAllProps_fuel_entries _ _ _ _ _ _ Hrun) as [_ Hfrom].
  destruct (Hfrom e He) as (n & Hn & Hnv & Hown). exists n. split; [|done].
  by apply (visit_reach _ _ _ _ _ (buildAllProps_fuel_ok _ _ _ _ _ _ Hrun)).
Qed.

(** X4.  The visited set a call leaves behind extends the one it was given
    and contains the resolved role, so resolving the same role again with
    that set, as a caller that keeps one [Set] for several calls does,
    returns the empty list and leaves the set as it is. *)
Theorem buildAllProps_again_empty roleInfo roleName visited :
  ∃ props visited',
    buildAllProps roleName roleInfo visited = Some (props, visited')
    ∧ roleName ∈ visited'
    ∧ visited ⊆ visited'
    ∧ buildAllProps roleName roleInfo visited' = Some ([], visited').
Proof.
  destruct (buildAllProps_total roleInfo roleName visited) as (ps & v' & Hrun).
  exists ps, v'. split; [done|].
  pose proof (buildAllProps_fuel_ok _ _ _ _ _ _ Hrun) as Hok.
  pose proof (visit_self _ _ _ _ _ Hok) as Hself.
  split; [done|]. split; [exact (visit_mono _ _ _ _ _ Hok)|].
  unfold buildAllProps. simpl. by rewrite decide_True.
Qed.

(** * Further properties of the extractor *)

(** ** [cleanText] *)

Lemma collapse_single_spaced b s : single_spaced b (collapse_spaces b s) = true.
Proof.
  revert b. induction s as [|c s IH]; intros b; simpl; [done|].
  destruct (is_space c) eqn:Hc.
  - destruct b; [apply IH|]. simpl. by rewrite IH.
  - simpl. by rewrite Hc.
Qed.

Lemma single_spaced_collapse b s :
  single_spaced b s = true → collapse_spaces b s = s.
Proof.
  revert b. induction s as [|c s IH]; intros b Hs; simpl in *; [done|].
  destruct (is_space c).
  - apply andb_prop in Hs as [[Hc Hb]%andb_prop Hs].
    apply Ascii.eqb_eq in Hc as ->. destruct b; [done|]. by rewrite IH.
  - by rewrite IH.
Qed.

Lemma single_spaced_trimStart b b' s :
  single_spaced b s = true → single_spaced b' (trimStart s) = true.
Proof.
  revert b. induction s as [|c s IH]; intros b Hs; simpl in *; [done|].
  destruct (is_space c) eqn:Hc.
  - apply andb_prop in Hs as [_ Hs]. by eapply IH.
  - simpl. by rewrite Hc.
Qed.

Lemma single_spaced_trimEnd b s :
  single_spaced b s = true → single_spaced b (trimEnd s) = true.
Proof.
  revert b. induction s as [|c s IH]; intros b Hs; simpl in *; [done|].
  destruct (is_space c) eqn:Hc; simpl.
  - apply andb_prop in Hs as [Hcb Hs].
    destruct (String.eqb (trimEnd s) ""); [done|]. simpl.
    rewrite Hc, Hcb. simpl. by apply IH.
  - rewrite Hc. by apply IH.
Qed.

Lemma trimEnd_idem s : trimEnd (trimEnd s) = trimEnd s.
Proof.
  induction s as [|c s IH]; simpl; [done|].
  destruct (is_space c && String.eqb (trimEnd s) "") eqn:Hdrop; [done|].
  simpl. by rewrite IH, Hdrop.
Qed.

Lemma trimStart_fixed s : trimStart (trimStart s) = trimStart s.
Proof.
  induction s as [|c s IH]; simpl; [done|].
  destruct (is_space c) eqn:Hc; [done|]. simpl. by rewrite Hc.
Qed.

Lemma trimStart_trimEnd s : trimStart s = s → trimStart (trimEnd s) = trimEnd s.
Proof.
  destruct s as [|c s]; simpl; [done|].
  destruct (is_space c) eqn:Hc; simpl.
  - intros Hs. exfalso.
    assert (String.length (trimStart s) ≤ String.length s) as Hlen.
    { clear. induction s as [|c s IH]; simpl; [done|].
      destruct (is_space c); simpl; lia. }
    rewrite Hs in Hlen. simpl in Hlen. lia.
  - intros _. by rewrite Hc.
Qed.

Lemma trim_idem s : trim (trim s) = trim s.
Proof.
  unfold trim.
  rewrite (trimStart_trimEnd (trimStart s)) by apply trimStart_fixed.
  apply trimEnd_idem.
Qed.

Lemma single_spaced_no_double b s :
  single_spaced b s = true → includes s "  " = false.
Proof.
  revert b. induction s as [|c s IH]; intros b Hs; [done|].
  cbn [includes]. apply orb_false_intro.
  - cbn [String.prefix]. destruct (ascii_dec " " c) as [<-|]; [|done].
    destruct s as [|c' s]; [reflexivity|]. cbn [String.prefix].
    destruct (ascii_dec " " c') as [<-|]; [|done].
    simpl in Hs. by rewrite andb_false_r in Hs.
  - simpl in Hs. destruct (is_space c).
    + apply andb_prop in Hs as [_ Hs]. by eapply IH.
    + by eapply IH.
Qed.

Lemma single_spaced_blank b s :
  single_spaced b s = true →
  all_chars (λ c, negb (is_space c) || Ascii.eqb c " ") s = true.
Proof.
  revert b. induction s as [|c s IH]; intros b Hs; simpl in *; [done|].
  destruct (is_space c); simpl.
  - apply andb_prop in Hs as [[-> _]%andb_prop Hs]. by eapply IH.
  - by eapply IH.
Qed.

Lemma cleanText_single_spaced text : single_spaced false (cleanText text) = true.
Proof.
  unfold cleanText. destruct (String.eqb text ""); [done|]. unfold trim.
  apply single_spaced_trimEnd.
  apply (single_spaced_trimStart false), collapse_single_spaced.
Qed.

Lemma cleanText_trim text : trim (cleanText text) = cleanText text.
Proof. unfold cleanText. destruct (String.eqb text ""); [done|]. apply trim_idem. Qed.

Lemma cleanText_idem text : cleanText (cleanText text) = cleanText text.
Proof.
  unfold cleanText at 1. destruct (String.eqb (cleanText text) "") eqn:Hempty.
  - by apply String.eqb_eq in Hempty.
  - rewrite single_spaced_collapse by apply cleanText_single_spaced.
    apply cleanText_trim.
Qed.

(** X5.  Cleaned text is in normal form: cleaning it again changes
    nothing, it has no white space at either end, no two blanks in a row,
    and no white-space unit other than the blank. *)
Theorem cleanText_normal_form text :
  cleanText (cleanText text) = cleanText text
  ∧ trim (cleanText text) = cleanText text
  ∧ includes (cleanText text) "  " = false
  ∧ all_chars (λ c, negb (is_space c) || Ascii.eqb c " ") (cleanText text) = true.
Proof.
  pose proof (cleanText_single_spaced text) as Hs.
  split; [apply cleanText_idem|]. split; [apply cleanText_trim|]. split.
  - by eapply single_spaced_no_double.
  - by eapply single_spaced_blank.
Qed.

(** ** Which blocks become records *)

Lemma usable_id_nonempty b k : usable_id b = Some k → k ≠ "".
Proof.
  unfold usable_id. destruct (block_id b) as [id|]; [|done].
  destruct (String.eqb_spec id ""); [done|]. by intros [= <-].
Qed.

Lemma last_filter_is_Some {B} (P : B → bool) (l : list B) :
  is_Some (last (List.filter P l)) ↔ ∃ b, b ∈ l ∧ P b = true.
Proof.
  split.
  - intros [b Hb]. exists b. apply last_Some_elem_of in Hb.
    by apply list_elem_of_In, filter_In in Hb as [?%list_elem_of_In ?].
  - intros (b & Hb & HP).
    assert (b ∈ List.filter P l) as Hin
      by (apply list_elem_of_In, filter_In; by rewrite <- list_elem_of_In).
    destruct (List.filter P l) as [|x xs] using rev_ind.
    + by apply elem_of_nil in Hin.
    + rewrite last_snoc. by eexists.
Qed.

Lemma last_filter_Some {B} (P : B → bool) (l : list B) b :
  last (List.filter P l) = Some b → b ∈ l ∧ P b = true.
Proof.
  intros Hb%last_Some_elem_of.
  by apply list_elem_of_In, filter_In in Hb as [?%list_elem_of_In ?].
Qed.

Lemma defining_block_Some blocks name b :
  defining_block blocks name = Some b → b ∈ blocks ∧ usable_id b = Some name.
Proof.
  intros [Hin Hid]%last_filter_Some. by apply bool_decide_eq_true in Hid.
Qed.

Lemma defining_block_is_Some blocks name :
  is_Some (defining_block blocks name) ↔ ∃ b, b ∈ blocks ∧ usable_id b = Some name.
Proof.
  unfold defining_block. rewrite last_filter_is_Some.
  by setoid_rewrite bool_decide_eq_true.
Qed.

Lemma role_row_name role row :
  role_name (role_row role row) = role_name role
  ∧ role_description (role_row role row) = role_description role.
Proof. role_row_cases role row. Qed.

Lemma foldl_role_row_name rows role :
  role_name (foldl role_row role rows) = role_name role
  ∧ role_description (foldl role_row role rows) = role_description role.
Proof.
  revert role. induction rows as [|row rows IH]; intros role; simpl; [done|].
  destruct (IH (role_row role row)) as (-> & ->). apply role_row_name.
Qed.

(** X6.  The role map has one record per distinct non-empty [id] among the
    role blocks, and nothing else: a block without an [id], or with an
    empty one, is skipped.  The record stored under an [id] is made from the
    last block with that [id]; it carries the [id] as its name and the
    cleaned description of that block, whatever the rows of the block are. *)
Theorem parseRoles_records doc :
  NoDup (obj_keys (parseRoles doc))
  ∧ (∀ k, k ∈ obj_keys (parseRoles doc)
          ↔ ∃ b, b ∈ role_blocks doc ∧ block_id b = Some k ∧ k ≠ "")
  ∧ (∀ k, obj_get (parseRoles doc) k
          = parse_role_block k <$> defining_block (role_blocks doc) k)
  ∧ (∀ k b, role_name (parse_role_block k b) = k
            ∧ role_description (parse_role_block k b)
              = cleanText (block_description b)).
Proof.
  split; [apply parseRoles_NoDup|]. split; [|split].
  - intros k. rewrite <- obj_get_is_Some, parseRoles_lookup, fmap_is_Some,
      defining_block_is_Some.
    split; intros (b & Hb & Hid); exists b; (split; [done|]).
    + split; [|by eapply usable_id_nonempty].
      unfold usable_id in Hid. destruct (block_id b) as [id|]; [|done].
      by destruct (String.eqb id ""); simplify_eq.
    + destruct Hid as [Hid Hk]. unfold usable_id. rewrite Hid.
      by destruct (String.eqb_spec k "").
  - apply parseRoles_lookup.
  - intros k b. apply foldl_role_row_name.
Qed.

(** ** List-valued fields *)

Lemma Forall_filter_Boolean (P : string → Prop) xs :
  Forall P xs → Forall (λ s, s ≠ "" ∧ P s) (filter_Boolean xs).
Proof.
  unfold filter_Boolean. induction 1 as [|x xs Hx _ IH]; simpl; [constructor|].
  destruct (String.eqb_spec x ""); simpl; [done|]. by constructor.
Qed.

Lemma ref_list_clean texts : Forall clean_name (ref_list texts).
Proof.
  unfold ref_list. apply Forall_filter_Boolean, Forall_fmap, Forall_forall.
  intros x _. apply cleanText_idem.
Qed.

Lemma role_row_reference_lists role row :
  Forall (Forall clean_name) (reference_lists role) →
  Forall (Forall clean_name) (reference_lists (role_row role row)).
Proof.
  unfold reference_lists. rewrite !Forall_cons.
  intros (H1 & H2 & H3 & H4 & H5 & H6 & H7 & H8 & H9 & _).
  revert H1 H2 H3 H4 H5 H6 H7 H8 H9.
  role_row_cases role row; intros; repeat split; auto using ref_list_clean.
Qed.

Lemma attr_row_reference_lists attr row :
  Forall (Forall clean_name) (attr_reference_lists attr) →
  Forall (Forall clean_name) (attr_reference_lists (attr_row attr row)).
Proof.
  unfold attr_reference_lists. rewrite !Forall_cons. intros (H1 & H2 & H3 & _).
  revert H1 H2 H3. unfold attr_row. destruct attr.
  destruct (attr_row_kind _); try destruct (td_tokens row); simpl; intros;
    repeat split; auto using ref_list_clean.
Qed.

(** X7.  Every entry of a list-valued field of a role (superclass,
    subclass, related concepts, required context, required owned elements,
    required, supported, inherited and prohibited states) and of an attribute
    (applicable roles, inherited-into roles, related concepts) is a
    non-empty text in cleaned form: empty references are dropped and no
    entry carries stray white space. *)
Theorem reference_lists_clean id b :
  Forall (Forall clean_name) (reference_lists (parse_role_block id b))
  ∧ Forall (Forall clean_name) (attr_reference_lists (parse_attr_block id b)).
Proof.
  split.
  - unfold parse_role_block.
    assert (Forall (Forall clean_name)
              (reference_lists (new_role id (cleanText (block_description b)))))
      as Hnew by (repeat constructor).
    revert Hnew. generalize (new_role id (cleanText (block_description b))).
    induction (block_rows b) as [|row rows IH]; intros role Hrole; simpl; [done|].
    by apply IH, role_row_reference_lists.
  - unfold parse_attr_block.
    assert (Forall (Forall clean_name)
              (attr_reference_lists
                 (new_attr id (block_is_state b) (cleanText (block_description b)))))
      as Hnew by (repeat constructor).
    revert Hnew.
    generalize (new_attr id (block_is_state b) (cleanText (block_description b))).
    induction (block_rows b) as [|row rows IH]; intros attr Hattr; simpl; [done|].
    by apply IH, attr_row_reference_lists.
Qed.

(** ** The tokens of [nameFrom] *)

Lemma all_chars_rev_app P a b :
  all_chars P (String.rev_app a b) = all_chars P a && all_chars P b.
Proof.
  revert b. induction a as [|c a IH]; intros b; simpl; [done|].
  rewrite IH. simpl. by destruct (P c), (all_chars P a), (all_chars P b).
Qed.

Lemma all_chars_trimStart P s : all_chars P s = true → all_chars P (trimStart s) = true.
Proof.
  induction s as [|c s IH]; simpl; [done|]. intros [Hc Hs]%andb_prop.
  destruct (is_space c); [by apply IH|]. simpl. by rewrite Hc, Hs.
Qed.

Lemma all_chars_trimEnd P s : all_chars P s = true → all_chars P (trimEnd s) = true.
Proof.
  induction s as [|c s IH]; simpl; [done|]. intros [Hc Hs]%andb_prop.
  destruct (is_space c && String.eqb (trimEnd s) ""); [done|].
  simpl. by rewrite Hc, IH.
Qed.

Lemma split_list_go_pieces in_sep cur s :
  all_chars (λ c, negb (is_list_separator c)) cur = true →
  Forall (λ t, all_chars (λ c, negb (is_list_separator c)) t = true)
    (split_list_go in_sep cur s).
Proof.
  revert in_sep cur. induction s as [|c s IH]; intros in_sep cur Hcur; simpl.
  - constructor; [|constructor]. unfold String.rev. by rewrite all_chars_rev_app, Hcur.
  - fold (is_list_separator c). destruct (is_list_separator c) eqn:Hc.
    + destruct in_sep; [by apply IH|]. constructor; [|by apply IH].
      unfold String.rev. by rewrite all_chars_rev_app, Hcur.
    + apply IH. simpl. by rewrite Hc, Hcur.
Qed.

Lemma name_tokens value :
  Forall list_token (filter_Boolean (trim <$> split_list value)).
Proof.
  apply Forall_filter_Boolean, Forall_fmap.
  eapply Forall_impl; [by apply (split_list_go_pieces false "")|].
  intros t Ht. simpl. unfold trim. by apply all_chars_trimEnd, all_chars_trimStart.
Qed.

Lemma role_row_nameFrom role row :
  Forall list_token (nameFrom role) → Forall list_token (nameFrom (role_row role row)).
Proof. role_row_cases role row; intros; auto using name_tokens. Qed.

(** X8.  Every entry of a role's [nameFrom] is a non-empty token that
    contains neither a comma nor white space, however the cell separates
    its words. *)
Theorem nameFrom_tokens id b : Forall list_token (nameFrom (parse_role_block id b)).
Proof.
  unfold parse_role_block.
  assert (Forall list_token (nameFrom (new_role id (cleanText (block_description b)))))
    as Hnew by constructor.
  revert Hnew. generalize (new_role id (cleanText (block_description b))).
  induction (block_rows b) as [|row rows IH]; intros role Hrole; simpl; [done|].
  by apply IH, role_row_nameFrom.
Qed.

(** ** States and properties *)

Lemma attr_row_fixed attr row :
  attr_name (attr_row attr row) = attr_name attr
  ∧ attr_type (attr_row attr row) = attr_type attr
  ∧ attr_description (attr_row attr row) = attr_description attr.
Proof.
  unfold attr_row. destruct attr.
  by destruct (attr_row_kind _); try destruct (td_tokens row).
Qed.

Lemma parse_attr_block_fixed id b :
  attr_name (parse_attr_block id b) = id
  ∧ attr_type (parse_attr_block id b) = (if block_is_state b then "state" else "property")
  ∧ attr_description (parse_attr_block id b) = cleanText (block_description b).
Proof.
  unfold parse_attr_block.
  assert (∀ rows attr,
            attr_name (foldl attr_row attr rows) = attr_name attr
            ∧ attr_type (foldl attr_row attr rows) = attr_type attr
            ∧ attr_description (foldl attr_row attr rows) = attr_description attr)
    as Hfold.
  { induction rows as [|row rows IH]; intros attr; simpl; [done|].
    destruct (IH (attr_row attr row)) as (-> & -> & ->). apply attr_row_fixed. }
  apply Hfold.
Qed.

Lemma parseStatesAndProperties_NoDup doc :
  NoDup (obj_keys (parseStatesAndProperties doc)).
Proof.
  unfold parseStatesAndProperties. generalize (attr_blocks doc). intros blocks.
  induction blocks as [|b blocks IH] using rev_ind; [constructor|].
  rewrite foldl_app. simpl. unfold parseAttrs_step at 1.
  destruct (usable_id b); [by apply obj_keys_set_NoDup | done].
Qed.

(** Lines 461-467 on an object with distinct keys. *)
Lemma foldl_split_step entries :
  NoDup (obj_keys entries) →
  ∀ states0 properties0 name,
    obj_get (foldl split_step (states0, properties0) entries).1 name
    = match obj_get entries name with
      | Some attr =>
          if String.eqb (attr_type attr) "state" then Some attr
          else obj_get states0 name
      | None => obj_get states0 name
      end
    ∧ obj_get (foldl split_step (states0, properties0) entries).2 name
      = match obj_get entries name with
        | Some attr =>
            if String.eqb (attr_type attr) "state" then obj_get properties0 name
            else Some attr
        | None => obj_get properties0 name
        end.
Proof.
  induction entries as [|[k a] entries IH]; intros Hnd states0 properties0 name;
    [done|].
  unfold obj_keys in Hnd. rewrite fmap_cons in Hnd. apply NoDup_cons in Hnd as [Hk Hnd].
  cbn [foldl split_step obj_get].
  destruct (String.eqb (attr_type a) "state") eqn:Hty.
  - destruct (IH Hnd (obj_set states0 k a) properties0 name) as [-> ->].
    destruct (String.eqb_spec k name) as [->|Hname].
    + simpl in Hk. apply obj_get_None in Hk. by rewrite Hk, Hty, obj_get_set, decide_True.
    + by rewrite obj_get_set, decide_False.
  - destruct (IH Hnd states0 (obj_set properties0 k a) name) as [-> ->].
    destruct (String.eqb_spec k name) as [->|Hname].
    + simpl in Hk. apply obj_get_None in Hk. by rewrite Hk, Hty, obj_get_set, decide_True.
    + by rewrite obj_get_set, decide_False.
Qed.

(** X9.  Every attribute of the primary document is written to exactly
    one of [states] and [properties]: to [states] when the block that
    defines it has the class [state], to [properties] otherwise; its [type]
    field says which, and rows never change it. *)
Theorem attributes_split_by_kind fs doc name attr :
  aria_index fs = Some doc →
  ∃ path data,
    written (main fs) = Some (path, data)
    ∧ (obj_get (states data) name = Some attr
       ↔ ∃ b, defining_block (attr_blocks doc) name = Some b
              ∧ block_is_state b = true
              ∧ attr = parse_attr_block name b ∧ attr_type attr = "state")
    ∧ (obj_get (properties data) name = Some attr
       ↔ ∃ b, defining_block (attr_blocks doc) name = Some b
              ∧ block_is_state b = false
              ∧ attr = parse_attr_block name b ∧ attr_type attr = "property").
Proof.
  intros Hdoc. unfold main. rewrite Hdoc. eexists _, _. split; [done|].
  cbn [states properties].
  destruct (foldl_split_step (parseStatesAndProperties doc)
              (parseStatesAndProperties_NoDup doc) [] [] name) as [Hs Hp].
  cbn [obj_get] in Hs, Hp. unfold JsObj in *. rewrite Hs, Hp. clear Hs Hp.
  rewrite parseStatesAndProperties_lookup.
  destruct (defining_block (attr_blocks doc) name) as [b|]; simpl.
  2:{ split; (split; [done | by intros (? & ? & _)]). }
  destruct (parse_attr_block_fixed name b) as (_ & Hty & _). rewrite Hty.
  destruct (block_is_state b) eqn:Hstate; simpl.
  - split; split.
    + intros [= <-]. by exists b.
    + intros (b' & Hb & _ & Hattr & _). congruence.
    + done.
    + intros (b' & Hb & Hst & _). congruence.
  - split; split.
    + done.
    + intros (b' & Hb & Hst & _). congruence.
    + intros [= <-]. by exists b.
    + intros (b' & Hb & _ & Hattr & _). congruence.
Qed.

Lemma attributes_split_by_kind_witness :
  ∃ path data,
    written (main sample_fs) = Some (path, data)
    ∧ (obj_get (states data) "aria-some"
       = Some (parse_attr_block "aria-some" some_roles_block)
       ↔ ∃ b, defining_block (attr_blocks sample_doc) "aria-some" = Some b
              ∧ block_is_state b = true
              ∧ parse_attr_block "aria-some" some_roles_block
                = parse_attr_block "aria-some" b
              ∧ attr_type (parse_attr_block "aria-some" some_roles_block) = "state")
    ∧ (obj_get (properties data) "aria-some"
       = Some (parse_attr_block "aria-some" some_roles_block)
       ↔ ∃ b, defining_block (attr_blocks sample_doc) "aria-some" = Some b
              ∧ block_is_state b = false
              ∧ parse_attr_block "aria-some" some_roles_block
                = parse_attr_block "aria-some" b
              ∧ attr_type (parse_attr_block "aria-some" some_roles_block) = "property").
Proof.
  apply (attributes_split_by_kind sample_fs sample_doc "aria-some"
           (parse_attr_block "aria-some" some_roles_block)).
  reflexivity.
Defined.

(** X10.  The global index is in ascending code-unit order and names no
    attribute twice. *)
Theorem global_index_sorted_nodup doc :
  Sorted String.le (global_index (parseStatesAndProperties doc))
  ∧ NoDup (global_index (parseStatesAndProperties doc)).
Proof.
  split; [apply global_index_sorted|].
  unfold global_index. rewrite merge_sort_Permutation.
  apply NoDup_ListNoDup, List.NoDup_filter, NoDup_ListNoDup,
    parseStatesAndProperties_NoDup.
Qed.

(** * Further properties of the categorizer *)

(** X11.  Categorization leaves the role map with the same keys in the
    same order, and the record under each key differs from the one before
    only in its [category] field, which holds the key of the first rule
    that matches. *)
Theorem categorizeRoles_frame roles :
  obj_keys (categorizeRoles roles).2 = obj_keys roles
  ∧ ∀ n, obj_get (categorizeRoles roles).2 n
         = (λ role, set_role_category (Some (category_key (first_match role n))) role)
           <$> obj_get roles n.
Proof. split; [apply categorizeRoles_keys | apply categorizeRoles_lookup]. Qed.

Lemma filter_sublist {B} (P : B → bool) (l : list B) : sublist (List.filter P l) l.
Proof.
  induction l as [|x l IH]; simpl; [constructor|].
  destruct (P x); by constructor.
Qed.

(** X12.  Every category list names its roles in the order in which the
    role map enumerates them: it is a sub-list of the key list. *)
Theorem categorizeRoles_order roles c :
  sublist (cat_list c (categorizeRoles roles).1) (obj_keys roles).
Proof. rewrite categorizeRoles_lists. apply filter_sublist. Qed.

Lemma category_count (f : string → option RoleCategory) (ks : list string) :
  (∀ k, k ∈ ks → is_Some (f k)) →
  sum_list ((λ c, length (List.filter (λ n, bool_decide (f n = Some c)) ks))
            <$> [Abstract; Widget; Document; Landmark; LiveRegion; Window; Composite])
  = length ks.
Proof.
  induction ks as [|k ks IH]; intros Hks; [done|].
  specialize (IH (λ k' Hk', Hks k' (list_elem_of_further _ _ _ Hk'))).
  destruct (Hks k) as [c Hc]; [left|].
  cbn [fmap list_fmap sum_list sum_list_with List.filter] in *. rewrite Hc.
  destruct c; cbn [bool_decide decide_rel]; simpl in *; lia.
Qed.

(** X13.  The seven category lists together are as long as the role map
    has keys: the counts reported per category add up to the number of
    roles. *)
Theorem categorizeRoles_counts roles :
  length (cat_abstract (categorizeRoles roles).1)
  + length (cat_widget (categorizeRoles roles).1)
  + length (cat_document (categorizeRoles roles).1)
  + length (cat_landmark (categorizeRoles roles).1)
  + length (cat_liveRegion (categorizeRoles roles).1)
  + length (cat_window (categorizeRoles roles).1)
  + length (cat_composite (categorizeRoles roles).1)
  = length (obj_keys roles).
Proof.
  rewrite <- (category_count (category_of roles) (obj_keys roles)).
  - cbn [fmap list_fmap sum_list sum_list_with].
    rewrite <- !categorizeRoles_lists. simpl. lia.
  - intros k Hk%obj_get_is_Some. unfold category_of.
    destruct Hk as [role ->]. by eexists.
Qed.

(** * Further properties of the assembled dataset *)

(** ** Element mappings *)

(** Building an object by one assignment per item that has a key: the value
    kept under a key is made from the last item with that key. *)
Lemma obj_get_foldl_keyed {A B} (key : B → option string) (make : string → B → A)
    items name :
  obj_get (foldl (λ o b, match key b with
                         | None => o
                         | Some id => obj_set o id (make id b)
                         end) [] items) name
  = make name <$> last (List.filter (λ b, bool_decide (key b = Some name)) items).
Proof.
  induction items as [|b items IH] using rev_ind; [done|].
  rewrite foldl_app, List.filter_app, last_app. simpl.
  destruct (key b) as [id|] eqn:Hid.
  - rewrite obj_get_set. case_decide as Hname.
    + subst id. by rewrite bool_decide_eq_true_2.
    + rewrite bool_decide_eq_false_2 by congruence. done.
  - by rewrite bool_decide_eq_false_2.
Qed.

Lemma foldl_step_ext {A B} (f g : A → B → A) (l : list B) (a : A) :
  (∀ a b, f a b = g a b) → foldl f a l = foldl g a l.
Proof.
  intros Hfg. revert a. induction l as [|b l IH]; intros a; simpl; [done|].
  by rewrite Hfg, IH.
Qed.

Lemma mapping_row_keyed mappings cells :
  mapping_row mappings cells
  = match row_element cells with
    | None => mappings
    | Some element => obj_set mappings element (row_mapping element cells)
    end.
Proof.
  unfold mapping_row, row_element, row_mapping.
  destruct cells as [|c0 [|c1 cells]]; try done. simpl.
  by destruct (negb _ && negb _).
Qed.

Lemma foldl_mapping_tables tables mappings :
  foldl mapping_table mappings tables
  = foldl mapping_row mappings (mapping_rows tables).
Proof.
  unfold mapping_rows. revert mappings.
  induction tables as [|t tables IH]; intros mappings; simpl; [done|].
  unfold mapping_table at 2, recognised at 1.
  destruct (_ || _); simpl; [|apply IH].
  by rewrite foldl_app, IH.
Qed.

(** X14.  In the element mappings the last row wins: the mapping kept for
    an element is the one of the last row, among the body rows of the tables
    with a recognised caption, that has at least two cells, both non-empty
    once cleaned, and whose first cell cleans to that element.  A kept
    mapping carries its key as [element], and element and role are
    non-empty cleaned texts. *)
Theorem parseHtmlAam_last_row_wins tables element :
  obj_get (parseHtmlAam (Some tables)).1 element
  = row_mapping element
    <$> last (List.filter (λ cells, bool_decide (row_element cells = Some element))
                (mapping_rows tables))
  ∧ match obj_get (parseHtmlAam (Some tables)).1 element with
    | Some m =>
        mapping_element m = element ∧ clean_name element ∧ clean_name (implicitRole m)
    | None => True
    end.
Proof.
  assert (obj_get (parseHtmlAam (Some tables)).1 element
          = row_mapping element
            <$> last (List.filter (λ cells, bool_decide (row_element cells = Some element))
                        (mapping_rows tables))) as Hget.
  { simpl. rewrite foldl_mapping_tables.
    rewrite <- (obj_get_foldl_keyed row_element row_mapping).
    f_equal. apply foldl_step_ext. intros m cells. apply mapping_row_keyed. }
  split; [done|]. rewrite Hget.
  destruct (last _) as [cells|] eqn:Hlast; [|done]. simpl.
  apply last_filter_Some in Hlast as [_ Hrow%bool_decide_eq_true].
  split; [done|]. unfold row_element in Hrow.
  destruct cells as [|c0 [|c1 cells]]; try done. simpl.
  destruct (String.eqb_spec (cleanText c0) ""), (String.eqb_spec (cleanText c1) "");
    simpl in Hrow; try done.
  injection Hrow as <-. repeat split; auto using cleanText_idem.
Qed.

(** ** Resolved roles in the dataset *)

Lemma dataset_role fs doc n role :
  aria_index fs = Some doc →
  obj_get (merge_roleInfo (loaded_table (roleInfo_js fs)) (parseRoles doc)) n = Some role →
  ∃ path data,
    written (main fs) = Some (path, data)
    ∧ obj_get (roles data) n = Some (categorized n role).
Proof.
  intros Hdoc Hrole. unfold main. rewrite Hdoc. eexists _, _. split; [done|].
  cbn [roles]. by rewrite categorizeRoles_lookup, parseRoleInfoJS_table, Hrole.
Qed.

(** X15.  A role of the primary document that has an entry in the
    inheritance table is written with all three resolver fields present:
    [allProps] is what [buildAllProps] resolves for its name, [localProps]
    and [parentRoles] are those of the entry, the empty list when the entry
    has none; its prose-derived [superclassRoles] stay as extracted. *)
Theorem resolved_role_in_dataset fs doc roleName role info :
  aria_index fs = Some doc →
  obj_get (parseRoles doc) roleName = Some role →
  loaded_table (roleInfo_js fs) !! roleName = Some info →
  ∃ path data role',
    written (main fs) = Some (path, data)
    ∧ obj_get (roles data) roleName = Some role'
    ∧ allProps role'
      = Some (buildAllProps_top roleName (loaded_table (roleInfo_js fs)))
    ∧ localProps role' = Some (default [] (localprops info))
    ∧ role_parentRoles role' = Some (default [] (parentRoles info))
    ∧ superclassRoles role' = superclassRoles role.
Proof.
  intros Hdoc Hrole Hinfo.
  destruct (merge_roleInfo_present _ _ _ _ _ Hinfo Hrole)
    as (merged & Hmerged & Hall & Hlocal & Hparents & Hsuper & _).
  destruct (dataset_role fs doc roleName merged Hdoc Hmerged) as (path & data & Hrun & Hget).
  exists path, data, (categorized roleName merged). split; [done|]. split; [done|].
  destruct (categorized_fields roleName merged) as (_ & -> & -> & -> & -> & _).
  by rewrite Hall, Hlocal, Hparents, Hsuper.
Qed.

Lemma resolved_role_in_dataset_witness :
  ∃ path data role',
    written (main switch_fs) = Some (path, data)
    ∧ obj_get (roles data) "switch" = Some role'
    ∧ allProps role'
      = Some (buildAllProps_top "switch" (loaded_table (roleInfo_js switch_fs)))
    ∧ localProps role' = Some (default [] (Some [required_prop "aria-checked"]))
    ∧ role_parentRoles role' = Some (default [] (Some ["checkbox"]))
    ∧ superclassRoles role' = superclassRoles (parse_role_block "switch" switch_block).
Proof.
  apply (resolved_role_in_dataset switch_fs switch_doc "switch"
           (parse_role_block "switch" switch_block)
           (mkInfo (Some ["checkbox"]) (Some [required_prop "aria-checked"]) None)).
  - reflexivity.
  - vm_compute. reflexivity.
  - vm_compute. reflexivity.
Defined.

Lemma names_buildAllProps_top roleInfo roleName x :
  x ∈ names (buildAllProps_top roleName roleInfo)
  ↔ ∃ n, rtc (follows roleInfo) roleName n ∧ x ∈ names (own_list roleInfo n).
Proof.
  destruct (buildAllProps_total roleInfo roleName ∅) as (ps & v' & Hrun).
  rewrite (buildAllProps_top_eq _ _ _ _ Hrun).
  pose proof (buildAllProps_fuel_ok _ _ _ _ _ _ Hrun) as Hok.
  rewrite (visit_names _ _ _ _ _ Hok). split.
  - intros (n & Hn & Hnv & Hx). exists n. split; [|done].
    by apply (visit_reach _ _ _ _ _ Hok).
  - intros (n & Hpath & Hx). exists n. split; [|split; [set_solver | done]].
    eapply (visit_ok_reachable _ _ _ _ _ roleName n Hok); [|done..].
    by eapply visit_self.
Qed.

(** X16.  In the dataset a role inherits from the parents its table entry
    declares: when the entry of [R] has no precomputed [allprops] and lists
    [P], and both are roles of the primary document with table entries,
    every property name in the [allProps] written for [P] is in the
    [allProps] written for [R]. *)
Theorem dataset_inherits_parent fs doc R P roleR roleP infoR infoP parents :
  aria_index fs = Some doc →
  obj_get (parseRoles doc) R = Some roleR →
  obj_get (parseRoles doc) P = Some roleP →
  loaded_table (roleInfo_js fs) !! R = Some infoR →
  loaded_table (roleInfo_js fs) !! P = Some infoP →
  allprops infoR = None → parentRoles infoR = Some parents → P ∈ parents →
  ∃ path data recordR recordP propsR propsP,
    written (main fs) = Some (path, data)
    ∧ obj_get (roles data) R = Some recordR ∧ allProps recordR = Some propsR
    ∧ obj_get (roles data) P = Some recordP ∧ allProps recordP = Some propsP
    ∧ names propsP ⊆ names propsR.
Proof.
  intros Hdoc HroleR HroleP HinfoR HinfoP Hall Hparents HP.
  destruct (merge_roleInfo_present _ _ _ _ _ HinfoR HroleR)
    as (mergedR & HmergedR & HallR & _).
  destruct (merge_roleInfo_present _ _ _ _ _ HinfoP HroleP)
    as (mergedP & HmergedP & HallP & _).
  destruct (dataset_role fs doc R mergedR Hdoc HmergedR) as (path & data & Hrun & HgetR).
  destruct (dataset_role fs doc P mergedP Hdoc HmergedP) as (path' & data' & Hrun' & HgetP).
  rewrite Hrun in Hrun'. injection Hrun' as <- <-.
  exists path, data, (categorized R mergedR), (categorized P mergedP).
  eexists _, _. split; [done|]. split; [done|].
  destruct (categorized_fields R mergedR) as (_ & -> & _).
  destruct (categorized_fields P mergedP) as (_ & -> & _).
  split; [done|]. split; [done|]. split; [done|].
  intros x (n & Hpath & Hx)%names_buildAllProps_top.
  apply names_buildAllProps_top. exists n. split; [|done].
  eapply rtc_l; [|done]. by exists infoR, parents.
Qed.

Lemma dataset_inherits_parent_witness :
  ∃ path data recordR recordP propsR propsP,
    written (main switch_fs) = Some (path, data)
    ∧ obj_get (roles data) "switch" = Some recordR ∧ allProps recordR = Some propsR
    ∧ obj_get (roles data) "checkbox" = Some recordP ∧ allProps recordP = Some propsP
    ∧ names propsP ⊆ names propsR.
Proof.
  apply (dataset_inherits_parent switch_fs switch_doc "switch" "checkbox"
           (parse_role_block "switch" switch_block)
           (parse_role_block "checkbox" checkbox_block)
           (mkInfo (Some ["checkbox"]) (Some [required_prop "aria-checked"]) None)
           (mkInfo None (Some [required_prop "aria-checked"; plain "aria-label"]) None)
           ["checkbox"]).
  - reflexivity.
  - vm_compute. reflexivity.
  - vm_compute. reflexivity.
  - vm_compute. reflexivity.
  - vm_compute. reflexivity.
  - reflexivity.
  - reflexivity.
  - apply (bool_decide_unpack _). vm_compute. exact I.
Defined.

(** ** Enumerated values of an attribute *)

Lemma split_on_pieces sep cur s :
  all_chars (λ c, negb (Ascii.eqb c sep)) cur = true →
  Forall (λ t, all_chars (λ c, negb (Ascii.eqb c sep)) t = true) (split_on sep cur s).
Proof.
  revert cur. induction s as [|c s IH]; intros cur Hcur; simpl.
  - constructor; [|constructor]. unfold String.rev. by rewrite all_chars_rev_app, Hcur.
  - destruct (Ascii.eqb c sep) eqn:Hc.
    + constructor; [|by apply IH]. unfold String.rev. by rewrite all_chars_rev_app, Hcur.
    + apply IH. simpl. by rewrite Hc, Hcur.
Qed.

Lemma value_tokens group1 :
  Forall value_token (filter_Boolean (trim <$> split "|" group1)).
Proof.
  apply Forall_filter_Boolean, Forall_fmap.
  eapply Forall_impl; [by apply (split_on_pieces "|" "")|].
  intros t Ht. simpl. split; [apply trim_idem|].
  unfold trim. by apply all_chars_trimEnd, all_chars_trimStart.
Qed.

Lemma attr_row_values attr row :
  Forall value_token (attr_values attr) →
  Forall value_token (attr_values (attr_row attr row)).
Proof.
  unfold attr_row. destruct attr.
  destruct (attr_row_kind _); try destruct (td_tokens row); simpl;
    auto using value_tokens.
Qed.

(** X17.  Every enumerated value of an attribute is a non-empty, trimmed
    text without a bar, whatever the [token] pattern captured: the capture
    is cut at the bars, each piece is trimmed and empty pieces are
    dropped. *)
Theorem attr_values_tokens id b : Forall value_token (attr_values (parse_attr_block id b)).
Proof.
  unfold parse_attr_block.
  assert (Forall value_token
            (attr_values (new_attr id (block_is_state b)
                            (cleanText (block_description b))))) as Hnew by constructor.
  revert Hnew.
  generalize (new_attr id (block_is_state b) (cleanText (block_description b))).
  induction (block_rows b) as [|row rows IH]; intros attr Hattr; simpl; [done|].
  by apply IH, attr_row_values.
Qed.
